(** * TotalMix volume controller: model and verified properties

    A shallow embedding of [totalmix_volume_controller.py].  The class
    [TotalMixController] becomes a record of its attributes; its methods become
    actions of a small state-and-exception monad over a [world] that pairs the
    object with the list of network events it has caused (sockets created,
    datagrams handed to [client.send_message]).  Console output ([print]) and
    the dB/bar rendering at the end of [set_volume] only feed the console and
    are not part of the model.

    Python's [float] is IEEE-754 binary64, which is what Rocq's primitive
    [float] is, so the controller is evaluated on primitive floats.  The
    methods only use [+], [-], [<], [>] and a few literals, so they are written
    once over a small numeric interface, and the general facts about them are
    proved from the laws of that interface (see [NumberLaws]).  Facts that
    depend on how binary64 rounds a sum or a difference are proved from the
    specification of the primitive operations ([SpecFloat]). *)

From Stdlib Require Import Floats ZArith Lia Bool List String Ascii.
From Stdlib.Strings Require Import Byte.
From Stdlib Require Import DecimalString.
From Stdlib Require DecimalZ DecimalPos.
Import ListNotations.

Set Warnings "-inexact-float".

(** ** Python numbers *)

Module Py.

(** The arithmetic and comparisons the controller performs on volume levels,
    and the four float literals of the source. *)
Class Number (F : Type) : Type := {
  add : F -> F -> F;          (* a + b *)
  sub : F -> F -> F;          (* a - b *)
  ltb : F -> F -> bool;       (* a < b *)
  leb : F -> F -> bool;       (* a <= b *)
  eqb : F -> F -> bool;       (* a == b *)
  of_int : Z -> F;            (* float(n), n an int *)
  lit_0_0 : F;                (* 0.0 *)
  lit_1_0 : F;                (* 1.0 *)
  lit_0_5 : F;                (* 0.5 *)
  lit_0_7197 : F              (* 0.7197 *)
}.

(** [float(n)] on binary64: the integer rounded to nearest-even.  (Python
    raises [OverflowError] where this gives an infinity, beyond 2^1023; the
    integers of a message are at most 64 bits wide.) *)
Definition float_of_int (n : Z) : float :=
  SF2Prim (binary_normalize prec emax n 0 false).

#[export] Instance Float64 : Number float := {
  add := PrimFloat.add;
  sub := PrimFloat.sub;
  ltb := PrimFloat.ltb;
  leb := PrimFloat.leb;
  eqb := PrimFloat.eqb;
  of_int := float_of_int;
  lit_0_0 := 0%float;
  lit_1_0 := 1%float;
  lit_0_5 := 0.5%float;
  lit_0_7197 := 0.7197%float
}.

Section Builtins.
Context {F : Type} `{Number F}.

(** [min(a, b)]: the first argument unless the second is smaller. *)
Definition min (a b : F) : F := if ltb b a then b else a.

(** [max(a, b)]: the first argument unless the second is greater ([b > a],
    which is [a < b]). *)
Definition max (a b : F) : F := if ltb a b then b else a.

(** [lo <= x <= hi] with [lo = 0.0] and [hi = 1.0]. *)
Definition in_unit (x : F) : bool := leb lit_0_0 x && leb x lit_1_0.

(** The argument values an inbound message can carry. *)
Inductive value : Type :=
| VFloat (x : F)
| VInt (n : Z)
| VStr (s : string).

End Builtins.
Arguments value F : clear implicits.

(** [str(n)] for an int, as the f-string [f"...{n}"] renders it. *)
Definition str (n : Z) : string := NilZero.string_of_int (Z.to_int n).

(** The value of an ASCII decimal digit. *)
Definition digit_value (c : ascii) : option Z :=
  let n := Z.of_nat (nat_of_ascii c) in
  if (48 <=? n)%Z && (n <=? 57)%Z then Some (n - 48)%Z else None.

Fixpoint digits_value (acc : Z) (s : string) : option Z :=
  match s with
  | EmptyString => Some acc
  | String c rest =>
      match digit_value c with
      | Some d => digits_value (10 * acc + d) rest
      | None => None
      end
  end.

(** [float(s)] on the strings made only of ASCII decimal digits, which denote
    the integer they spell.  Every other string is left without a value here:
    this is the builtin cut down to its plainest literals, enough to run the
    handler on concrete string arguments such as "42" or "loud". *)
Definition float_of_digits (s : string) : option float :=
  match s with
  | EmptyString => None
  | String _ _ => option_map float_of_int (digits_value 0 s)
  end.

(** Exceptions that the modelled code can raise. *)
Inductive exn : Type :=
| ValueError.

Inductive outcome (A : Type) : Type :=
| Returned (a : A)
| Raised (e : exn).
Arguments Returned {A} a.
Arguments Raised {A} e.

(** What the proofs use of the comparisons: [<] implies [<=], the two orders
    exclude each other, numbers that equal themselves (everything but a NaN)
    are comparable, a NaN is below nothing, and the literals [0.0], [0.5],
    [1.0] lie in that order. *)
Class NumberLaws (F : Type) `{Number F} : Prop := {
  ltb_leb : forall a b : F, ltb a b = true -> leb a b = true;
  leb_not_gt : forall a b : F, leb a b = true -> ltb b a = false;
  not_leb_gt : forall a b : F,
    eqb a a = true -> eqb b b = true -> leb a b = false -> ltb b a = true;
  nan_not_lt : forall a b : F, eqb a a = false -> ltb a b = false;
  eqb_0 : eqb lit_0_0 lit_0_0 = true;
  eqb_1 : eqb lit_1_0 lit_1_0 = true;
  leb_0_0 : leb lit_0_0 lit_0_0 = true;
  leb_1_1 : leb lit_1_0 lit_1_0 = true;
  leb_0_1 : leb lit_0_0 lit_1_0 = true;
  ltb_0_1 : ltb lit_0_0 lit_1_0 = true;
  leb_0_half : leb lit_0_0 lit_0_5 = true;
  leb_half_1 : leb lit_0_5 lit_1_0 = true;
  below_0_lt_1 : forall v : F, leb v lit_0_0 = true -> ltb v lit_1_0 = true;
  above_1_gt_0 : forall v : F, leb lit_1_0 v = true -> ltb lit_0_0 v = true
}.

End Py.

(** ** The controller *)

Module TotalMixController.
Import Py.
#[local] Open Scope string_scope.
#[local] Open Scope Z_scope.

(** OSC addresses for TotalMix (class attributes). *)
Definition BUS_OUTPUT : string := "/1/busOutput".
Definition VOLUME_1 : string := "/1/volume1".
Definition MASTER_VOLUME : string := "/1/mastervolume".
Definition MASTER_MUTE : string := "/1/mainMute".
Definition MAIN_DIM : string := "/1/mainDim".

(** [f"/1/volume{f}"] *)
Definition fader_address (f : Z) : string := "/1/volume" ++ str f.

Section Controller.
Context {F : Type} `{Number F}.

(** Python's builtin [float] applied to a [str]: the parsed number, or [None]
    where it raises [ValueError].  The builtin is not part of the program, so
    every definition that converts a string takes it as a parameter. *)
Variable float_of_str : string -> option F.

(** Volume values (class attributes). *)
Definition UNITY_GAIN : F := lit_0_7197.
Definition MIN_VOLUME : F := lit_0_0.
Definition MAX_VOLUME : F := lit_1_0.

(** The attributes [__init__] assigns.  [client] is represented by the
    [Sent] events of the world below. *)
Record Controller : Type := {
  ip : string;
  port : Z;
  receive_port : Z;
  step : F;
  current_volume : F;
  is_muted : bool;
  running : bool;
  faders : list Z;
  volume_addresses : list string;
  received_feedback : bool
}.

(** What the object does to the network, oldest first. *)
Inductive event : Type :=
| ClientCreated (ip : string) (port : Z)      (* udp_client.SimpleUDPClient(ip, port) *)
| ListenerStarted (receive_port : Z)          (* the listener thread is started *)
| Sent (address : string) (payload : F).      (* client.send_message(address, payload) *)

Record world : Type := {
  self : Controller;
  wire : list event
}.

(** Attribute assignments. *)
Definition set_current_volume (v : F) (c : Controller) : Controller :=
  {| ip := ip c; port := port c; receive_port := receive_port c; step := step c;
     current_volume := v; is_muted := is_muted c; running := running c;
     faders := faders c; volume_addresses := volume_addresses c;
     received_feedback := received_feedback c |}.

Definition set_is_muted (b : bool) (c : Controller) : Controller :=
  {| ip := ip c; port := port c; receive_port := receive_port c; step := step c;
     current_volume := current_volume c; is_muted := b; running := running c;
     faders := faders c; volume_addresses := volume_addresses c;
     received_feedback := received_feedback c |}.

Definition set_running (b : bool) (c : Controller) : Controller :=
  {| ip := ip c; port := port c; receive_port := receive_port c; step := step c;
     current_volume := current_volume c; is_muted := is_muted c; running := b;
     faders := faders c; volume_addresses := volume_addresses c;
     received_feedback := received_feedback c |}.

Definition set_received_feedback (b : bool) (c : Controller) : Controller :=
  {| ip := ip c; port := port c; receive_port := receive_port c; step := step c;
     current_volume := current_volume c; is_muted := is_muted c; running := running c;
     faders := faders c; volume_addresses := volume_addresses c;
     received_feedback := b |}.

(** *** Method bodies as actions: a state and exception monad.
    An exception keeps every assignment made before it was raised. *)
Definition M (A : Type) : Type := world -> outcome A * world.

Definition ret {A : Type} (a : A) : M A := fun w => (Returned a, w).

Definition bind {A B : Type} (m : M A) (k : A -> M B) : M B :=
  fun w => match m w with
           | (Returned a, w') => k a w'
           | (Raised e, w') => (Raised e, w')
           end.

Definition raise {A : Type} (e : exn) : M A := fun w => (Raised e, w).

Definition attr {A : Type} (f : Controller -> A) : M A :=
  fun w => (Returned (f (self w)), w).

Definition assign (upd : Controller -> Controller) : M unit :=
  fun w => (Returned tt, {| self := upd (self w); wire := wire w |}).

Definition emit (e : event) : M unit :=
  fun w => (Returned tt, {| self := self w; wire := wire w ++ [e] |}).

Notation "x <- m ;; k" := (bind m (fun x => k))
  (at level 61, m at next level, right associativity).
Notation "m ;; k" := (bind m (fun _ => k))
  (at level 61, right associativity).

(** [for x in xs: body(x)] *)
Fixpoint for_each {A : Type} (xs : list A) (body : A -> M unit) : M unit :=
  match xs with
  | [] => ret tt
  | x :: rest => body x ;; for_each rest body
  end.

(** [client.send_message(address, value)]: one datagram, fire and forget. *)
Definition send_message (address : string) (value : F) : M unit :=
  emit (Sent address value).

(** [float(x)] for an argument of an inbound message: its numeric value, or
    [None] where the conversion raises [ValueError]. *)
Definition float_value (x : value F) : option F :=
  match x with
  | VFloat y => Some y
  | VInt n => Some (of_int n)
  | VStr s => float_of_str s
  end.

Definition to_float (x : value F) : M F :=
  match float_value x with
  | Some y => ret y
  | None => raise ValueError
  end.

(** [address in self.volume_addresses] *)
Definition contains (xs : list string) (a : string) : bool :=
  existsb (String.eqb a) xs.

(** Truth value of a tuple or list: non-empty. *)
Definition truthy {A : Type} (xs : list A) : bool :=
  match xs with [] => false | _ :: _ => true end.

(** The handler the listener calls for every inbound message.  [args[0]] is
    read only where the test has found [args] non-empty. *)
Definition _handle_osc_feedback (address : string) (args : list (value F)) : M unit :=
  seen <- attr received_feedback ;;
  (if negb seen then assign (set_received_feedback true) else ret tt) ;;
  addrs <- attr volume_addresses ;;
  if contains addrs address && truthy args then
    match args with
    | a0 :: _ => v <- to_float a0 ;; assign (set_current_volume v)
    | [] => ret tt
    end
  else ret tt.

Definition _start_listener : M unit :=
  p <- attr receive_port ;;
  emit (ListenerStarted p).

Definition _select_output_bus : M unit :=
  send_message BUS_OUTPUT lit_1_0.

(** [float(value)] in the two [send_message] calls is the identity on a
    float.  The rest of the method renders the level for the console. *)
Definition set_volume (value : F) : M unit :=
  let value := max MIN_VOLUME (min MAX_VOLUME value) in
  assign (set_current_volume value) ;;
  send_message BUS_OUTPUT lit_1_0 ;;
  addrs <- attr volume_addresses ;;
  for_each addrs (fun addr => send_message addr value) ;;
  send_message MASTER_VOLUME value.

Definition volume_up : M unit :=
  cur <- attr current_volume ;;
  st <- attr step ;;
  set_volume (add cur st).

Definition volume_down : M unit :=
  cur <- attr current_volume ;;
  st <- attr step ;;
  set_volume (sub cur st).

Definition toggle_mute : M unit :=
  m <- attr is_muted ;;
  assign (set_is_muted (negb m)) ;;
  m' <- attr is_muted ;;
  send_message MASTER_MUTE (if m' then lit_1_0 else lit_0_0).

Definition set_unity_gain : M unit :=
  set_volume UNITY_GAIN.

Definition stop : M unit :=
  assign (set_running false).

(** [TotalMixController(ip, port, receive_port, step, faders)]: the new object
    and the events of its construction.  [faders = None] is the omitted (or
    [None]) argument.  Creating the client is taken to succeed (the library
    may fail to resolve [ip]; that is outside the program). *)
Definition __init__ (ip : string) (port receive_port : Z) (step : F)
    (faders : option (list Z)) : world :=
  let faders :=
    match faders with
    | Some (f :: fs) => f :: fs
    | Some [] | None => [1; 2; 3; 4; 5; 6]
    end in
  let c := {| ip := ip; port := port; receive_port := receive_port; step := step;
              current_volume := lit_0_5; is_muted := false; running := true;
              faders := faders;
              volume_addresses := map fader_address faders;
              received_feedback := false |} in
  snd ((_start_listener ;; _select_output_bus)
         {| self := c; wire := [ClientCreated ip port] |}).

(** The clamp of [v] into [0, 1] as the specification words it: values at or
    below the lower bound go to the bound, values at or above the upper bound
    go to the bound, the rest are kept. *)
Definition clamp_to_unit (v : F) : F :=
  if leb v lit_0_0 then lit_0_0
  else if leb lit_1_0 v then lit_1_0
  else v.

(** *** Operation sequences
    Calls of the hotkey callbacks and of the listener's handler, taken one at
    a time in the order they run; an exception ends the call that raised it
    and nothing else. *)
Inductive op : Type :=
| SetVolume (v : F)
| VolumeUp
| VolumeDown
| ToggleMute
| SetUnityGain
| Stop
| OnFeedback (address : string) (args : list (value F)).

Definition call (o : op) : M unit :=
  match o with
  | SetVolume v => set_volume v
  | VolumeUp => volume_up
  | VolumeDown => volume_down
  | ToggleMute => toggle_mute
  | SetUnityGain => set_unity_gain
  | Stop => stop
  | OnFeedback address args => _handle_osc_feedback address args
  end.

Fixpoint run (ops : list op) (w : world) : world :=
  match ops with
  | [] => w
  | o :: rest => run rest (snd (call o w))
  end.

(** A call that cannot take the level out of [0, 1]: any local operation,
    and any inbound message except one for an address of [addrs] whose first
    argument converts to a number outside [0, 1]. *)
Definition level_safe (addrs : list string) (o : op) : bool :=
  match o with
  | OnFeedback address (a0 :: _) =>
      if contains addrs address then
        match float_value a0 with
        | Some y => in_unit y
        | None => true
        end
      else true
  | _ => true
  end.

End Controller.

Arguments Controller F : clear implicits.
Arguments event F : clear implicits.
Arguments world F : clear implicits.
Arguments op F : clear implicits.
Arguments M F A : clear implicits.

(** The controller of the usage example, driving faders 1 and 2:
    [TotalMixController("192.168.1.100", 7001, 9001, 0.02, [1, 2])]. *)
Definition fresh : world float :=
  __init__ "192.168.1.100" 7001 9001 0.02%float (Some [1; 2]).

End TotalMixController.

(** ** The message codec

    The program hands encoding and decoding to the [pythonosc] package
    ([client.send_message], [Dispatcher]); none of it is in the program's own
    files.  The codec below follows the prose specification of the wire
    format. *)

Module Codec.
#[local] Open Scope Z_scope.

(** Modelled from the spec: the codec's argument values ("32-bit float,
    32-bit integer, or string").  A 32-bit float is held as its IEEE-754
    binary32 bit pattern, an unsigned 32-bit word. *)
Inductive argument : Type :=
| AFloat (bits : Z)
| AInt (n : Z)
| AStr (s : string).

(** Modelled from the spec: ControlMessage, "address" and "arguments (ordered
    sequence of typed values)". *)
Record ControlMessage : Type := {
  address : string;
  arguments : list argument
}.

(** Modelled from the spec: decoding "fails with MalformedMessage". *)
Inductive error : Type :=
| MalformedMessage.

Inductive result (A : Type) : Type :=
| Ok (a : A)
| Error (e : error).
Arguments Ok {A} a.
Arguments Error {A} e.

Definition and_then {A B : Type} (r : result A) (k : A -> result B) : result B :=
  match r with
  | Ok a => k a
  | Error e => Error e
  end.

Notation "x <- r ;; k" := (and_then r (fun x => k))
  (at level 61, r at next level, right associativity).
Notation "' p <- r ;; k" := (and_then r (fun x => match x with p => k end))
  (at level 61, p pattern, r at next level, right associativity).

Definition byte_of_Z (z : Z) : byte :=
  match Byte.of_N (Z.to_N (z mod 256)) with
  | Some b => b
  | None => x00
  end.

Definition Z_of_byte (b : byte) : Z := Z.of_N (Byte.to_N b).

(** Modelled from the spec: a string is "NUL-terminated ... padded with NUL
    bytes to the next 4-byte boundary": after [n] bytes of text come
    [4 - n mod 4] NULs, at least one. *)
Definition padding (n : nat) : nat := (4 - n mod 4)%nat.

Definition encode_string (s : string) : list byte :=
  let text := list_byte_of_string s in
  text ++ repeat x00 (padding (List.length text)).

(** Modelled from the spec: numeric arguments are "4 bytes", "big-endian". *)
Definition encode_word (u : Z) : list byte :=
  [byte_of_Z (Z.shiftr u 24); byte_of_Z (Z.shiftr u 16);
   byte_of_Z (Z.shiftr u 8); byte_of_Z u].

(** Modelled from the spec: "one tag character per argument (float, integer,
    or string)". *)
Definition tag (a : argument) : ascii :=
  match a with
  | AFloat _ => "f"%char
  | AInt _ => "i"%char
  | AStr _ => "s"%char
  end.

Definition encode_argument (a : argument) : list byte :=
  match a with
  | AFloat bits => encode_word bits
  | AInt n => encode_word (n mod 2 ^ 32)
  | AStr s => encode_string s
  end.

(** Modelled from the spec: encode(address, arguments): the padded address, a
    padded type-tag string "beginning with a fixed marker character" (the
    comma), then each argument's value. *)
Definition encode (m : ControlMessage) : list byte :=
  encode_string (address m)
  ++ encode_string (String ","%char (string_of_list_ascii (map tag (arguments m))))
  ++ List.concat (map encode_argument (arguments m)).

(** The text before the first NUL, if there is a NUL. *)
Fixpoint until_nul (bs : list byte) : option (list byte) :=
  match bs with
  | [] => None
  | b :: rest =>
      if Byte.eqb b x00 then Some []
      else option_map (cons b) (until_nul rest)
  end.

(** Modelled from the spec: decoding a string fails "if the address is not
    NUL-terminated within the buffer" or "if padding does not land on a
    4-byte boundary" inside it. *)
Definition decode_string (bs : list byte) : result (string * list byte) :=
  match until_nul bs with
  | None => Error MalformedMessage
  | Some text =>
      let padded := (List.length text + padding (List.length text))%nat in
      if (padded <=? List.length bs)%nat
      then Ok (string_of_list_byte text, skipn padded bs)
      else Error MalformedMessage
  end.

Definition decode_word (bs : list byte) : result (Z * list byte) :=
  match bs with
  | b3 :: b2 :: b1 :: b0 :: rest =>
      Ok (Z.shiftl (Z_of_byte b3) 24 + Z.shiftl (Z_of_byte b2) 16
          + Z.shiftl (Z_of_byte b1) 8 + Z_of_byte b0, rest)
  | _ => Error MalformedMessage
  end.

(** Two's complement reading of a 32-bit word. *)
Definition signed (u : Z) : Z := if u <? 2 ^ 31 then u else u - 2 ^ 32.

(** Modelled from the spec: one value per tag character; fails "if the
    type-tag string is ... malformed, or if the buffer is truncated relative
    to the declared argument count". *)
Fixpoint decode_arguments (tags : string) (bs : list byte) : result (list argument) :=
  match tags with
  | EmptyString => Ok []
  | String t tags' =>
      if Ascii.eqb t "f" then
        '(u, rest) <- decode_word bs ;;
        args <- decode_arguments tags' rest ;;
        Ok (AFloat u :: args)
      else if Ascii.eqb t "i" then
        '(u, rest) <- decode_word bs ;;
        args <- decode_arguments tags' rest ;;
        Ok (AInt (signed u) :: args)
      else if Ascii.eqb t "s" then
        '(s, rest) <- decode_string bs ;;
        args <- decode_arguments tags' rest ;;
        Ok (AStr s :: args)
      else Error MalformedMessage
  end.

(** Modelled from the spec: decode(bytes), the "inverse operation". *)
Definition decode (bs : list byte) : result ControlMessage :=
  '(addr, rest) <- decode_string bs ;;
  '(tags, rest') <- decode_string rest ;;
  match tags with
  | String "," tags' =>
      args <- decode_arguments tags' rest' ;;
      Ok {| address := addr; arguments := args |}
  | _ => Error MalformedMessage
  end.

(** What a message must satisfy to be encodable without loss: no NUL inside
    a string, float patterns and integers within 32 bits. *)
Definition valid_string (s : string) : bool :=
  forallb (fun b => negb (Byte.eqb b x00)) (list_byte_of_string s).

Definition valid_argument (a : argument) : bool :=
  match a with
  | AFloat bits => (0 <=? bits) && (bits <? 2 ^ 32)
  | AInt n => (- 2 ^ 31 <=? n) && (n <? 2 ^ 31)
  | AStr s => valid_string s
  end.

Definition valid (m : ControlMessage) : bool :=
  valid_string (address m) && forallb valid_argument (arguments m).

(** Modelled from the spec: "float arguments are 4-byte big-endian IEEE-754".
    The number a binary32 pattern denotes, as a binary64 value (exact). *)
Definition binary32_value (bits : Z) : float :=
  let e := Z.land (Z.shiftr bits 23) 255 in
  let m := Z.land bits (2 ^ 23 - 1) in
  let magnitude :=
    if e =? 255 then (if m =? 0 then infinity else nan)
    else if e =? 0 then Z.ldexp (Py.float_of_int m) (-149)
    else Z.ldexp (Py.float_of_int (2 ^ 23 + m)) (e - 150) in
  if Z.testbit bits 31 then PrimFloat.opp magnitude else magnitude.

End Codec.

(** ** [main]: building the controller, and waiting for the end *)

Module Main.
Import Py TotalMixController.
#[local] Open Scope string_scope.
#[local] Open Scope Z_scope.

(** [c.isspace()] for a character below code point 256: the ASCII controls
    9..13 and 28..31, the space, NEL (133) and the no-break space (160). *)
Definition is_space (c : ascii) : bool :=
  let n := nat_of_ascii c in
  ((9 <=? n) && (n <=? 13) || (28 <=? n) && (n <=? 31)
   || (n =? 32) || (n =? 133) || (n =? 160))%nat.

Fixpoint lstrip (s : string) : string :=
  match s with
  | EmptyString => EmptyString
  | String c rest => if is_space c then lstrip rest else s
  end.

Fixpoint rstrip (s : string) : string :=
  match s with
  | EmptyString => EmptyString
  | String c rest =>
      match rstrip rest with
      | EmptyString => if is_space c then EmptyString else String c EmptyString
      | kept => String c kept
      end
  end.

(** [s.strip()] *)
Definition strip (s : string) : string := rstrip (lstrip s).

(** [s.split(sep)] for a one-character separator: every occurrence cuts, and
    empty pieces are kept, so there is always at least one piece. *)
Fixpoint split (sep : ascii) (s : string) : list string :=
  match s with
  | EmptyString => [EmptyString]
  | String c rest =>
      if Ascii.eqb c sep then EmptyString :: split sep rest
      else match split sep rest with
           | piece :: pieces => String c piece :: pieces
           | [] => [String c EmptyString]
           end
  end.

Section Startup.

(** Python's builtin [int] applied to a [str]: the parsed integer, or [None]
    where it raises [ValueError]. *)
Variable int_of_str : string -> option Z.

(** [[int(f.strip()) for f in pieces]]: the first piece that does not parse
    ends the comprehension with [ValueError]. *)
Fixpoint ints (pieces : list string) : outcome (list Z) :=
  match pieces with
  | [] => Returned []
  | f :: rest =>
      match int_of_str (strip f) with
      | None => Raised ValueError
      | Some n =>
          match ints rest with
          | Returned ns => Returned (n :: ns)
          | Raised e => Raised e
          end
      end
  end.

(** [faders_list = [int(f.strip()) for f in args.faders.split(',')]] *)
Definition parse_faders (arg : string) : outcome (list Z) :=
  ints (split "," arg).

(** The parsed command line: [--ip], [--port], [--step], [--faders]. *)
Record Namespace : Type := {
  arg_ip : string;
  arg_port : Z;
  arg_step : float;
  arg_faders : string
}.

(** What the call of the constructor under [try] comes to.  Its calls into
    the libraries ([udp_client.SimpleUDPClient(ip, port)], [thread.start()],
    [time.sleep(0.2)], [client.send_message]) are not part of the program, so
    whether one of them raises, and what, is an input. *)
Inductive construction : Type :=
| Completes         (* none raises: the constructor is [__init__] *)
| RaisesException   (* one raises an [Exception], as for a port outside
                       0..65535 or an [ip] that does not resolve *)
| RaisesOther.      (* one is left by an exception that is no [Exception],
                       as [KeyboardInterrupt] during the sleep *)

(** How [main] comes out of its first part. *)
Inductive started : Type :=
| Started (w : world float)   (* [controller] is bound; [main] goes on *)
| Uncaught (e : exn)          (* [e], raised by the program, leaves [main] *)
| Passed                      (* the library's exception leaves [main] *)
| Exited (status : Z).        (* [sys.exit(status)] *)

(** [main] from the parsed arguments to the constructed controller.  The
    fader list is parsed before the [try], so its [ValueError] is not caught.
    The constructor runs under [try ... except Exception]: an [Exception]
    raised in it is caught, and the handler prints the error and calls
    [sys.exit(1)]; any other exception goes through.  What the constructor
    had done before it raised is not recorded.  The constructor is called
    without [receive_port], which is then 9001. *)
Definition startup (library : construction) (a : Namespace) : started :=
  match parse_faders (arg_faders a) with
  | Raised e => Uncaught e
  | Returned faders_list =>
      match library with
      | Completes =>
          Started (__init__ (arg_ip a) (arg_port a) 9001 (arg_step a)
                     (Some faders_list))
      | RaisesException => Exited 1
      | RaisesOther => Passed
      end
  end.

End Startup.

(** The callbacks [main] registers with [keyboard.add_hotkey], by the name of
    the key combination. *)
Definition hotkey (combination : string) : option (op float) :=
  if String.eqb combination "ctrl+shift+up" then Some VolumeUp
  else if String.eqb combination "ctrl+shift+down" then Some VolumeDown
  else if String.eqb combination "ctrl+shift+m" then Some ToggleMute
  else if String.eqb combination "ctrl+shift+0" then Some SetUnityGain
  else if String.eqb combination "ctrl+shift+q" then Some Stop
  else None.

(** What happens while [main] is in its loop, in the order it happens: a key
    combination reaches the [keyboard] hook; a message from the mixer is
    delivered to the listener's default handler; [KeyboardInterrupt] is raised
    in the main thread; or [time.sleep(0.1)] returns (or the loop is entered),
    and the loop tests [controller.running]. *)
Inductive input : Type :=
| Key (combination : string)
| Inbound (address : string) (args : list (value float))
| Interrupt
| Wake.

(** Where [main] stands: still inside [while controller.running], or past
    the [try], which it left either because the test failed or through
    [except KeyboardInterrupt: pass]. *)
Inductive loop : Type :=
| Waiting (w : world float)
| Finished (w : world float) (interrupted : bool).

(** [try: while controller.running: time.sleep(0.1)
     except KeyboardInterrupt: pass]
    with the callbacks of the other threads run as their inputs arrive.  A
    key combination without a hotkey calls nothing. *)
Fixpoint main_loop (float_of_str : string -> option float)
    (inputs : list input) (w : world float) : loop :=
  match inputs with
  | [] => Waiting w
  | Key combination :: rest =>
      main_loop float_of_str rest
        match hotkey combination with
        | Some o => snd (call float_of_str o w)
        | None => w
        end
  | Inbound address args :: rest =>
      main_loop float_of_str rest
        (snd (call float_of_str (OnFeedback address args) w))
  | Interrupt :: _ => Finished w true
  | Wake :: rest =>
      if running (self w) then main_loop float_of_str rest w
      else Finished w false
  end.

Definition is_quit (i : input) : bool :=
  match i with
  | Key combination => String.eqb combination "ctrl+shift+q"
  | _ => false
  end.

Definition is_interrupt (i : input) : bool :=
  match i with
  | Interrupt => true
  | _ => false
  end.

End Main.

(** ** Observers of an operation sequence and of the wire *)

Module Session.
Import Py TotalMixController.

Section Session.
Context {F : Type} `{Number F}.

Definition is_feedback (o : op F) : bool :=
  match o with OnFeedback _ _ => true | _ => false end.

Definition is_stop (o : op F) : bool :=
  match o with Stop => true | _ => false end.

Definition is_toggle (o : op F) : bool :=
  match o with ToggleMute => true | _ => false end.

(** The calls that go through [set_volume]. *)
Definition sets_volume (o : op F) : bool :=
  match o with
  | SetVolume _ | VolumeUp | VolumeDown | SetUnityGain => true
  | _ => false
  end.

(** Datagrams one call sends when the controller drives [n] fader addresses. *)
Definition datagrams (n : nat) (o : op F) : nat :=
  if sets_volume o then 2 + n else if is_toggle o then 1 else 0.

(** The payloads of the datagrams in a wire, oldest first. *)
Definition payloads (tr : list (event F)) : list F :=
  flat_map (fun e => match e with Sent _ v => [v] | _ => [] end) tr.

(** The payload of the latest datagram sent to [address], if any. *)
Definition last_sent (address : string) (tr : list (event F)) : option F :=
  fold_left (fun acc e =>
               match e with
               | Sent a v => if String.eqb a address then Some v else acc
               | _ => acc
               end) tr None.

End Session.
End Session.

(** ** Binary64 representations

    [Prim2SF] gives the representation of a binary64 number as a sign, a
    mantissa and an exponent.  Two notions the facts about rounded sums and
    differences are stated with. *)

Module Repr.

(** [x] is a zero, an infinity or a finite number of sign [sx] ([true] is
    minus); a NaN has neither sign. *)
Definition has_sign (sx : bool) (x : spec_float) : Prop :=
  match x with
  | S754_nan => False
  | S754_zero s | S754_infinity s | S754_finite s _ _ => s = sx
  end.

(** The representation of [1.0]: mantissa 2^52, exponent -52. *)
Definition SF_one : spec_float := S754_finite false 4503599627370496 (-52).

End Repr.

(** * Properties *)

Import Py.

(** ** The comparisons of binary64 obey [NumberLaws] *)

Lemma SFcompare_antisym (x y : spec_float) :
  SFcompare y x = option_map CompOpp (SFcompare x y).
Proof.
  destruct x as [sx|sx| |sx mx ex], y as [sy|sy| |sy my ey]; simpl;
    try destruct sx; try destruct sy; simpl; try reflexivity;
    rewrite (Z.compare_antisym ex ey); destruct (ex ?= ey)%Z; simpl; try reflexivity;
    change Eq with (CompOpp Eq) at 1; rewrite <- Pos.compare_cont_antisym; simpl;
    reflexivity.
Qed.

Lemma SFcompare_defined (x y : spec_float) :
  SFeqb x x = true -> SFeqb y y = true -> exists c, SFcompare x y = Some c.
Proof.
  destruct x as [sx|sx| |sx mx ex], y as [sy|sy| |sy my ey]; cbn;
    try discriminate; eauto.
Qed.

Lemma Prim2SF_0 : Prim2SF 0 = S754_zero false.
Proof. reflexivity. Qed.

Lemma Prim2SF_1 : Prim2SF 1 = S754_finite false 4503599627370496 (-52).
Proof. reflexivity. Qed.

Lemma float_ltb_leb (a b : float) :
  PrimFloat.ltb a b = true -> PrimFloat.leb a b = true.
Proof.
  rewrite FloatAxioms.ltb_spec, FloatAxioms.leb_spec. unfold SFltb, SFleb.
  destruct (SFcompare _ _) as [[]|]; congruence.
Qed.

Lemma float_leb_not_gt (a b : float) :
  PrimFloat.leb a b = true -> PrimFloat.ltb b a = false.
Proof.
  rewrite FloatAxioms.ltb_spec, FloatAxioms.leb_spec. unfold SFltb, SFleb.
  rewrite (SFcompare_antisym (Prim2SF a) (Prim2SF b)).
  destruct (SFcompare _ _) as [[]|]; cbn; congruence.
Qed.

Lemma float_not_leb_gt (a b : float) :
  PrimFloat.eqb a a = true -> PrimFloat.eqb b b = true ->
  PrimFloat.leb a b = false -> PrimFloat.ltb b a = true.
Proof.
  rewrite FloatAxioms.ltb_spec, FloatAxioms.leb_spec, !FloatAxioms.eqb_spec.
  intros Ha Hb. destruct (SFcompare_defined _ _ Ha Hb) as [c Hc].
  unfold SFltb, SFleb.
  rewrite (SFcompare_antisym (Prim2SF a) (Prim2SF b)), Hc.
  destruct c; cbn; congruence.
Qed.

Lemma float_nan_not_lt (a b : float) :
  PrimFloat.eqb a a = false -> PrimFloat.ltb a b = false.
Proof.
  rewrite FloatAxioms.ltb_spec, FloatAxioms.eqb_spec.
  generalize (Prim2SF a) (Prim2SF b). intros x y. unfold SFltb, SFeqb.
  destruct x as [s|s| |s m e]; try destruct s; cbn;
    try discriminate; try reflexivity;
    rewrite Z.compare_refl, Pos.compare_cont_refl; discriminate.
Qed.

Lemma float_below_0_lt_1 (v : float) :
  PrimFloat.leb v 0 = true -> PrimFloat.ltb v 1 = true.
Proof.
  rewrite FloatAxioms.ltb_spec, FloatAxioms.leb_spec, Prim2SF_0, Prim2SF_1.
  destruct (Prim2SF v) as [s|s| |s m e]; try destruct s;
    cbv [SFleb SFltb SFcompare]; congruence.
Qed.

Lemma float_above_1_gt_0 (v : float) :
  PrimFloat.leb 1 v = true -> PrimFloat.ltb 0 v = true.
Proof.
  rewrite FloatAxioms.ltb_spec, FloatAxioms.leb_spec, Prim2SF_0, Prim2SF_1.
  destruct (Prim2SF v) as [s|s| |s m e]; try destruct s;
    cbv [SFleb SFltb SFcompare]; congruence.
Qed.

#[export] Instance Float64_laws : NumberLaws float.
Proof.
  constructor; cbn [ltb leb eqb lit_0_0 lit_1_0 lit_0_5 Float64].
  - exact float_ltb_leb.
  - exact float_leb_not_gt.
  - exact float_not_leb_gt.
  - exact float_nan_not_lt.
  - reflexivity.
  - reflexivity.
  - reflexivity.
  - reflexivity.
  - reflexivity.
  - reflexivity.
  - reflexivity.
  - reflexivity.
  - exact float_below_0_lt_1.
  - exact float_above_1_gt_0.
Qed.

(** ** The controller over any numbers that obey the laws *)

Import TotalMixController.

Section ControllerFacts.
Context {F : Type} {N : Number F} {L : NumberLaws F}.
Variable float_of_str : string -> option F.

(** The expression of [set_volume]'s first line lands in [0, 1] whatever it is
    given, a NaN included. *)
Lemma clamp_in_unit (v : F) :
  in_unit (max MIN_VOLUME (min MAX_VOLUME v)) = true.
Proof.
  unfold in_unit, max, min, MIN_VOLUME, MAX_VOLUME.
  destruct (ltb v lit_1_0) eqn:Hv.
  - destruct (ltb lit_0_0 v) eqn:H0.
    + now rewrite (ltb_leb _ _ H0), (ltb_leb _ _ Hv).
    + now rewrite leb_0_0, leb_0_1.
  - now rewrite ltb_0_1, leb_0_1, leb_1_1.
Qed.

(** ... and on a number it is the clamp the specification describes; a NaN
    goes to the upper bound. *)
Lemma clamp_value (v : F) :
  max MIN_VOLUME (min MAX_VOLUME v) =
  if eqb v v then clamp_to_unit v else lit_1_0.
Proof.
  unfold clamp_to_unit, max, min, MIN_VOLUME, MAX_VOLUME.
  destruct (eqb v v) eqn:Hn.
  - destruct (leb v lit_0_0) eqn:Hlo.
    + now rewrite (below_0_lt_1 _ Hlo), (leb_not_gt _ _ Hlo).
    + destruct (leb lit_1_0 v) eqn:Hhi.
      * now rewrite (leb_not_gt _ _ Hhi), ltb_0_1.
      * now rewrite (not_leb_gt _ _ eqb_1 Hn Hhi), (not_leb_gt _ _ Hn eqb_0 Hlo).
  - now rewrite (nan_not_lt v lit_1_0 Hn), ltb_0_1.
Qed.

Lemma for_each_send (addrs : list string) (v : F) (w : world F) :
  for_each addrs (fun addr => send_message addr v) w =
  (Returned tt,
   {| self := self w; wire := wire w ++ map (fun addr => Sent addr v) addrs |}).
Proof.
  revert w. induction addrs as [|a rest IH]; intros [c tr]; cbn.
  - now rewrite app_nil_r.
  - unfold bind, send_message, emit; cbn. rewrite IH; cbn.
    now rewrite <- app_assoc.
Qed.

(** [set_volume] in closed form: it returns, stores the clamped level, and
    sends bus-select, one message per fader address, and the master volume. *)
Lemma set_volume_spec (v : F) (w : world F) :
  let cv := max MIN_VOLUME (min MAX_VOLUME v) in
  set_volume v w =
  (Returned tt,
   {| self := set_current_volume cv (self w);
      wire := wire w ++ Sent BUS_OUTPUT lit_1_0
                      :: map (fun addr => Sent addr cv) (volume_addresses (self w))
                      ++ [Sent MASTER_VOLUME cv] |}).
Proof.
  destruct w as [c tr]. unfold set_volume, bind, assign, attr.
  change (send_message BUS_OUTPUT lit_1_0) with (emit (Sent BUS_OUTPUT lit_1_0)).
  cbn [emit self wire]. rewrite for_each_send.
  unfold send_message, emit; cbn.
  now rewrite <- !app_assoc.
Qed.

(** The feedback handler in closed form. *)
Lemma feedback_spec (address : string) (args : list (value F)) (w : world F) :
  let c := if received_feedback (self w) then self w
           else set_received_feedback true (self w) in
  _handle_osc_feedback float_of_str address args w =
  match args with
  | a0 :: _ =>
      if contains (volume_addresses (self w)) address then
        match float_value float_of_str a0 with
        | Some v => (Returned tt, {| self := set_current_volume v c; wire := wire w |})
        | None => (Raised ValueError, {| self := c; wire := wire w |})
        end
      else (Returned tt, {| self := c; wire := wire w |})
  | [] => (Returned tt, {| self := c; wire := wire w |})
  end.
Proof.
  destruct w as [c tr].
  unfold _handle_osc_feedback, bind, attr, assign, ret, to_float, raise.
  cbn -[contains].
  destruct (received_feedback c), args as [|a0 rest]; cbn -[contains];
    rewrite ?andb_false_r, ?andb_true_r; try reflexivity;
    (destruct (contains (volume_addresses c) address); [|reflexivity]);
    now destruct (float_value float_of_str a0).
Qed.

(** One call keeps the level in [0, 1] (and the fader addresses as they are)
    unless it is an inbound fader message carrying a level outside [0, 1]. *)
Lemma call_keeps_level_in_unit (addrs : list string) (o : op F) (w : world F) :
  level_safe float_of_str addrs o = true ->
  volume_addresses (self w) = addrs ->
  in_unit (current_volume (self w)) = true ->
  in_unit (current_volume (self (snd (call float_of_str o w)))) = true
  /\ volume_addresses (self (snd (call float_of_str o w))) = addrs.
Proof.
  intros Hsafe Haddrs Hin. destruct o; cbn [call].
  - rewrite set_volume_spec. split; [apply clamp_in_unit | exact Haddrs].
  - unfold volume_up, bind, attr. rewrite set_volume_spec.
    split; [apply clamp_in_unit | exact Haddrs].
  - unfold volume_down, bind, attr. rewrite set_volume_spec.
    split; [apply clamp_in_unit | exact Haddrs].
  - destruct w as [c tr]. now split.
  - unfold set_unity_gain. rewrite set_volume_spec.
    split; [apply clamp_in_unit | exact Haddrs].
  - destruct w as [c tr]. now split.
  - rewrite feedback_spec. destruct w as [c tr]. cbn [self wire] in *.
    cbn [level_safe] in Hsafe. rewrite Haddrs.
    destruct args as [|a0 rest];
      [destruct (received_feedback c); now split|].
    destruct (contains addrs address);
      [|destruct (received_feedback c); now split].
    destruct (float_value float_of_str a0) as [y|];
      destruct (received_feedback c); now split.
Qed.

Lemma run_keeps_level_in_unit (addrs : list string) (ops : list (op F)) :
  forall w : world F,
  forallb (level_safe float_of_str addrs) ops = true ->
  volume_addresses (self w) = addrs ->
  in_unit (current_volume (self w)) = true ->
  in_unit (current_volume (self (run float_of_str ops w))) = true.
Proof.
  induction ops as [|o rest IH]; intros w Hall Haddrs Hin; cbn [run].
  - exact Hin.
  - cbn [forallb] in Hall. apply andb_true_iff in Hall as [Ho Hrest].
    destruct (call_keeps_level_in_unit addrs o w Ho Haddrs Hin) as [Hin' Haddrs'].
    now apply IH.
Qed.

(** No call touches the configuration: the fader list, the addresses derived
    from it, and the step stay as [__init__] set them. *)
Lemma call_keeps_configuration (o : op F) (w : world F) :
  let w' := snd (call float_of_str o w) in
  faders (self w') = faders (self w)
  /\ volume_addresses (self w') = volume_addresses (self w)
  /\ step (self w') = step (self w).
Proof.
  destruct o; cbn [call].
  - rewrite set_volume_spec. now repeat split.
  - unfold volume_up, bind, attr. rewrite set_volume_spec. now repeat split.
  - unfold volume_down, bind, attr. rewrite set_volume_spec. now repeat split.
  - destruct w as [c tr]. now repeat split.
  - unfold set_unity_gain. rewrite set_volume_spec. now repeat split.
  - destruct w as [c tr]. now repeat split.
  - rewrite feedback_spec. destruct w as [c tr]. cbn [self wire].
    destruct args as [|a0 rest];
      [destruct (received_feedback c); now repeat split|].
    destruct (contains (volume_addresses c) address);
      [|destruct (received_feedback c); now repeat split].
    destruct (float_value float_of_str a0) as [y|];
      destruct (received_feedback c); now repeat split.
Qed.

(** [volume_up] and [volume_down] are [set_volume] of the level plus or minus
    the step. *)
Lemma volume_up_level (w : world F) :
  current_volume (self (snd (volume_up w))) =
  max MIN_VOLUME (min MAX_VOLUME (add (current_volume (self w)) (step (self w)))).
Proof. unfold volume_up, bind, attr. now rewrite set_volume_spec. Qed.

Lemma volume_down_level (w : world F) :
  current_volume (self (snd (volume_down w))) =
  max MIN_VOLUME (min MAX_VOLUME (sub (current_volume (self w)) (step (self w)))).
Proof. unfold volume_down, bind, attr. now rewrite set_volume_spec. Qed.

(** A freshly constructed controller starts at mid-scale. *)
Lemma init_level (ip : string) (port receive_port : Z) (step : F)
    (faders : option (list Z)) :
  current_volume (self (__init__ ip port receive_port step faders)) = lit_0_5.
Proof. reflexivity. Qed.

End ControllerFacts.


(** ** The controller as the program runs it, on binary64 *)

Section Binary64.
Open Scope float_scope.
Open Scope string_scope.

(** C1, as stated, fails: after construction, one inbound message for fader 1
    carrying 1.5 leaves [current_volume] at 1.5, outside [0.0, 1.0]. *)
Lemma feedback_leaves_unit_range :
  let w := run float_of_digits [OnFeedback "/1/volume1" [VFloat 1.5]] fresh in
  current_volume (self w) = 1.5 /\ in_unit (current_volume (self w)) = false.
Proof. split; reflexivity. Qed.

(** C1, amended: from the state [__init__] builds, every sequence of
    [set_volume], [volume_up], [volume_down], [toggle_mute], [set_unity_gain],
    [stop] and feedback calls keeps [current_volume] in [0.0, 1.0], provided
    no feedback message for a fader address carries a first argument whose
    numeric value is outside [0.0, 1.0].  The local operations need no
    condition: whatever they are given, a NaN included, they clamp. *)
Theorem level_stays_in_unit (float_of_str : string -> option float)
    (ip : string) (port receive_port : Z) (step : float)
    (faders : option (list Z)) (ops : list (op float)) :
  let w0 := __init__ ip port receive_port step faders in
  forallb (level_safe float_of_str (volume_addresses (self w0))) ops = true ->
  in_unit (current_volume (self (run float_of_str ops w0))) = true.
Proof.
  intros w0 Hsafe.
  apply (run_keeps_level_in_unit float_of_str (volume_addresses (self w0)));
    [exact Hsafe | reflexivity |].
  unfold w0. rewrite init_level. reflexivity.
Qed.

Lemma level_stays_in_unit_witness :
  let ops := [VolumeUp; SetVolume 1.5; OnFeedback "/1/volume2" [VFloat 0.33];
              VolumeDown; ToggleMute; OnFeedback "/1/volume9" [VFloat 7];
              OnFeedback "/1/volume1" [VStr "loud"]; SetVolume nan;
              SetUnityGain; VolumeUp] in
  forallb (level_safe float_of_digits (volume_addresses (self fresh))) ops = true
  /\ in_unit (current_volume (self (run float_of_digits ops fresh))) = true.
Proof.
  split; [reflexivity|].
  apply (level_stays_in_unit float_of_digits "192.168.1.100" 7001 9001 0.02
           (Some [1; 2]%Z)).
  reflexivity.
Defined.

(** C2: for every input [v], [set_volume v] returns and leaves in
    [current_volume] a level within [0, 1] that is the clamp of [v] into
    [0, 1]: 0.0 when [v <= 0], 1.0 when [v >= 1], [v] itself in between (a
    NaN, which is none of these, ends at 1.0).  In particular
    [set_volume 1.5] leaves 1.0. *)
Theorem set_volume_clamps (v : float) (w : world float) :
  fst (set_volume v w) = Returned tt
  /\ in_unit (current_volume (self (snd (set_volume v w)))) = true
  /\ current_volume (self (snd (set_volume v w))) =
       (if PrimFloat.eqb v v then clamp_to_unit v else 1)
  /\ current_volume (self (snd (set_volume 1.5 w))) = 1.
Proof.
  rewrite !set_volume_spec. cbn [fst snd self current_volume set_current_volume].
  repeat split.
  - apply clamp_in_unit.
  - exact (clamp_value v).
Qed.

(** C3: whatever the prior state (so whatever was last written locally), an
    inbound message whose address is one of the controller's fader addresses
    and whose first argument has the numeric value [x] makes the handler
    return with [current_volume] equal to [x]. *)
Theorem feedback_overwrites_level (float_of_str : string -> option float)
    (w : world float) (address : string) (a0 : value float)
    (rest : list (value float)) (x : float) :
  contains (volume_addresses (self w)) address = true ->
  float_value float_of_str a0 = Some x ->
  fst (_handle_osc_feedback float_of_str address (a0 :: rest) w) = Returned tt
  /\ current_volume
       (self (snd (_handle_osc_feedback float_of_str address (a0 :: rest) w))) = x.
Proof.
  intros Hin Hx. rewrite feedback_spec. cbn zeta. rewrite Hin, Hx.
  destruct (received_feedback (self w)); split; reflexivity.
Qed.

Lemma feedback_overwrites_level_witness :
  let w := snd (set_volume 0.9 fresh) in
  current_volume (self w) = 0.9
  /\ fst (_handle_osc_feedback float_of_digits "/1/volume2" [VFloat 0.33] w)
     = Returned tt
  /\ current_volume
       (self (snd (_handle_osc_feedback float_of_digits "/1/volume2"
                     [VFloat 0.33] w))) = 0.33.
Proof.
  split; [reflexivity|].
  apply (feedback_overwrites_level float_of_digits (snd (set_volume 0.9 fresh))
           "/1/volume2" (VFloat 0.33) [] 0.33); reflexivity.
Defined.

(** C5: with faders 1 and 2, step 0.02 and level 0.5, one [volume_up] returns
    with the level at 0.52 and appends exactly four datagrams to what was sent
    before: bus-select, fader 1, fader 2, master volume.  Bus-select is not
    cached: every [set_volume], in every state, sends it again first. *)
Theorem volume_up_scenario (w : world float) :
  faders (self w) = [1; 2]%Z ->
  volume_addresses (self w) = map fader_address (faders (self w)) ->
  step (self w) = 0.02 ->
  current_volume (self w) = 0.5 ->
  fst (volume_up w) = Returned tt
  /\ current_volume (self (snd (volume_up w))) = 0.52
  /\ wire (snd (volume_up w)) =
       (wire w ++ [Sent BUS_OUTPUT 1; Sent "/1/volume1" 0.52;
                   Sent "/1/volume2" 0.52; Sent MASTER_VOLUME 0.52])%list
  /\ (forall (v : float) (w' : world float),
        exists tail,
          wire (snd (set_volume v w')) =
          (wire w' ++ Sent BUS_OUTPUT 1 :: tail)%list).
Proof.
  intros Hf Hva Hstep Hcur.
  unfold volume_up, bind, attr. cbn [fst snd]. rewrite set_volume_spec.
  cbn [fst snd self wire current_volume set_current_volume].
  rewrite Hva, Hf, Hstep, Hcur.
  repeat split.
  intros v w'. rewrite set_volume_spec. cbn [snd wire]. eauto.
Qed.

Lemma volume_up_scenario_witness :
  current_volume (self (snd (volume_up fresh))) = 0.52
  /\ wire (snd (volume_up fresh)) =
       (wire fresh ++ [Sent BUS_OUTPUT 1; Sent "/1/volume1" 0.52;
                       Sent "/1/volume2" 0.52; Sent MASTER_VOLUME 0.52])%list.
Proof.
  pose proof (volume_up_scenario fresh eq_refl eq_refl eq_refl eq_refl)
    as (_ & Hlevel & Hwire & _).
  exact (conj Hlevel Hwire).
Defined.

(** C6, as stated, fails: on the fresh controller with faders 1 and 2, the
    message ["/1/volume9", [0.1]] changes the state: [received_feedback] goes
    from [False] to [True]. *)
Lemma foreign_feedback_sets_flag :
  let w := snd (_handle_osc_feedback float_of_digits "/1/volume9" [VFloat 0.1] fresh) in
  received_feedback (self fresh) = false
  /\ received_feedback (self w) = true
  /\ self w <> self fresh.
Proof.
  repeat split. intros Heq.
  apply (f_equal received_feedback) in Heq. discriminate Heq.
Qed.

(** C6, amended: an inbound message whose address is not one of the fader
    addresses makes the handler return, sends nothing, and changes no
    attribute other than [received_feedback], which is [True] afterwards; so
    [current_volume] and [is_muted] keep their values, and once
    [received_feedback] is [True] the whole state is unchanged. *)
Theorem foreign_feedback_frame (float_of_str : string -> option float)
    (w : world float) (address : string) (args : list (value float)) :
  contains (volume_addresses (self w)) address = false ->
  let r := _handle_osc_feedback float_of_str address args w in
  fst r = Returned tt
  /\ wire (snd r) = wire w
  /\ self (snd r) = set_received_feedback true (self w)
  /\ current_volume (self (snd r)) = current_volume (self w)
  /\ is_muted (self (snd r)) = is_muted (self w)
  /\ received_feedback (self (snd r)) = true
  /\ (received_feedback (self w) = true -> snd r = w).
Proof.
  intros Hout r. unfold r. rewrite feedback_spec. cbn zeta. rewrite Hout.
  destruct w as [c tr]. cbn [self wire].
  destruct c as [i p rp st cur m run fs addrs seen]; cbn.
  destruct seen, args; cbn; repeat split; discriminate.
Qed.

Lemma foreign_feedback_frame_witness :
  let r := _handle_osc_feedback float_of_digits "/1/volume9" [VFloat 0.1] fresh in
  current_volume (self (snd r)) = current_volume (self fresh)
  /\ is_muted (self (snd r)) = is_muted (self fresh)
  /\ received_feedback (self (snd r)) = true.
Proof.
  pose proof (foreign_feedback_frame float_of_digits fresh "/1/volume9"
                [VFloat 0.1] eq_refl) as (_ & _ & _ & Hcur & Hmute & Hseen & _).
  exact (conj Hcur (conj Hmute Hseen)).
Defined.

(** C7: in every state, [toggle_mute(); toggle_mute()] leaves [is_muted] (and
    the whole object) as it was and appends exactly two datagrams, both to the
    master-mute address; each carries the state just after its own flip as a
    float, 1.0 for muted and 0.0 for unmuted, so the two payloads differ. *)
Theorem toggle_mute_twice (w : world float) :
  let w1 := snd (toggle_mute w) in
  let w2 := snd (toggle_mute w1) in
  fst (toggle_mute w) = Returned tt
  /\ fst (toggle_mute w1) = Returned tt
  /\ is_muted (self w1) = negb (is_muted (self w))
  /\ is_muted (self w2) = is_muted (self w)
  /\ self w2 = self w
  /\ wire w2 =
       (wire w ++ [Sent MASTER_MUTE (if is_muted (self w1) then 1 else 0);
                   Sent MASTER_MUTE (if is_muted (self w2) then 1 else 0)])%list
  /\ PrimFloat.eqb (if is_muted (self w1) then 1 else 0)
                   (if is_muted (self w2) then 1 else 0) = false.
Proof.
  destruct w as [c tr].
  destruct c as [i p rp st cur m run fs addrs seen].
  unfold toggle_mute, bind, attr, assign, send_message, emit; cbn.
  rewrite <- app_assoc, negb_involutive.
  destruct m; repeat split.
Qed.

(** C8, as stated, fails: constructing the controller with an empty fader list
    raises nothing; the object is created with the substituted list 1..6, the
    client socket is created, the listener is started and bus-select is
    sent. *)
Lemma empty_faders_are_substituted :
  let w := __init__ "192.168.1.100" 7001 9001 0.02 (Some []) in
  faders (self w) = [1; 2; 3; 4; 5; 6]%Z
  /\ wire w = [ClientCreated "192.168.1.100" 7001; ListenerStarted 9001;
               Sent BUS_OUTPUT 1].
Proof. split; reflexivity. Qed.

(** C8, amended: constructing the controller with an empty fader list is the
    same as constructing it with the argument omitted.  No error arises: the
    default faders 1..6 are substituted, with their six addresses, and
    construction creates the client socket, starts the listener and sends
    bus-select. *)
Theorem init_defaults_empty_faders (ip : string) (port receive_port : Z)
    (step : float) :
  __init__ ip port receive_port step (Some []) =
  __init__ ip port receive_port step None
  /\ faders (self (__init__ ip port receive_port step (Some []))) =
       [1; 2; 3; 4; 5; 6]%Z
  /\ volume_addresses (self (__init__ ip port receive_port step (Some []))) =
       ["/1/volume1"; "/1/volume2"; "/1/volume3";
        "/1/volume4"; "/1/volume5"; "/1/volume6"]
  /\ wire (__init__ ip port receive_port step (Some [])) =
       [ClientCreated ip port; ListenerStarted receive_port; Sent BUS_OUTPUT 1].
Proof. repeat split. Qed.

(** C10: the handler is not total.  For a message to one of the fader
    addresses whose first argument is a string that [float] cannot parse, it
    raises [ValueError]; by then [received_feedback] has been set, and
    [current_volume] is left as it was. *)
Theorem feedback_raises_on_bad_string (float_of_str : string -> option float)
    (w : world float) (address s : string) (rest : list (value float)) :
  contains (volume_addresses (self w)) address = true ->
  float_of_str s = None ->
  let r := _handle_osc_feedback float_of_str address (VStr s :: rest) w in
  fst r = Raised ValueError
  /\ received_feedback (self (snd r)) = true
  /\ current_volume (self (snd r)) = current_volume (self w).
Proof.
  intros Hin Hbad r. unfold r. rewrite feedback_spec. cbn zeta.
  rewrite Hin. cbn [float_value]. rewrite Hbad.
  destruct (received_feedback (self w)) eqn:Hseen; cbn; repeat split; assumption.
Qed.

Lemma feedback_raises_on_bad_string_witness :
  let r := _handle_osc_feedback float_of_digits "/1/volume1" [VStr "loud"] fresh in
  contains (volume_addresses (self fresh)) "/1/volume1" = true
  /\ float_of_digits "loud" = None
  /\ fst r = Raised ValueError.
Proof.
  split; [reflexivity|]. split; [reflexivity|].
  exact (proj1 (feedback_raises_on_bad_string float_of_digits fresh
                  "/1/volume1" "loud" [] eq_refl eq_refl)).
Defined.

End Binary64.

(** ** Rounding: the sum and the difference of a level and a step

    [volume_up] and [volume_down] hand [set_volume] a binary64 sum or
    difference.  The clamp then acts on one side only when the level is in
    [0, 1] and the step is not negative, because rounding keeps a sum of
    non-negative numbers non-negative, and keeps at or below 1 what is left
    of a number of [0, 1] after a non-negative number is taken away.  Both are
    proved from the rounding algorithm of [SpecFloat]. *)

Section Rounding.
Import Repr.
Open Scope Z_scope.

Lemma digits2_pos_bounds (p : positive) :
  2 ^ (Zpos (digits2_pos p) - 1) <= Zpos p < 2 ^ Zpos (digits2_pos p).
Proof.
  induction p as [p IH|p IH|]; cbn [digits2_pos].
  - rewrite Pos2Z.inj_succ.
    replace (Z.succ (Zpos (digits2_pos p)) - 1)
      with (Z.succ (Zpos (digits2_pos p) - 1)) by lia.
    rewrite !Z.pow_succ_r by lia. lia.
  - rewrite Pos2Z.inj_succ.
    replace (Z.succ (Zpos (digits2_pos p)) - 1)
      with (Z.succ (Zpos (digits2_pos p) - 1)) by lia.
    rewrite !Z.pow_succ_r by lia. lia.
  - cbn. lia.
Qed.

(** One shift to the right halves a non-negative mantissa. *)
Lemma shr_1_m (r : shr_record) :
  0 <= shr_m r -> shr_m (shr_1 r) = shr_m r / 2.
Proof.
  destruct r as [m b s]. cbn [shr_m]. intros Hm. unfold shr_1.
  destruct m as [|[p|p|]|p]; cbn [shr_m].
  - reflexivity.
  - apply Z.div_unique with 1; lia.
  - apply Z.div_unique with 0; lia.
  - reflexivity.
  - lia.
Qed.

Lemma div_pow2_nonneg (m n : Z) : 0 <= m -> 0 <= m / 2 ^ n.
Proof.
  intros Hm. apply Z_div_nonneg_nonneg; [exact Hm | apply Z.pow_nonneg; lia].
Qed.

Lemma iter_shr_1_m (p : positive) :
  forall r : shr_record, 0 <= shr_m r ->
  shr_m (SpecFloat.iter_pos shr_1 p r) = shr_m r / 2 ^ Zpos p.
Proof.
  induction p as [p IH|p IH|]; intros r Hr; cbn [SpecFloat.iter_pos].
  - assert (H1 : 0 <= shr_m (shr_1 r))
      by (rewrite shr_1_m by lia; apply Z.div_pos; lia).
    assert (H2 : 0 <= shr_m (SpecFloat.iter_pos shr_1 p (shr_1 r)))
      by (rewrite IH by lia; apply div_pow2_nonneg; lia).
    rewrite IH, IH, shr_1_m by lia.
    rewrite !Z.div_div by lia. f_equal.
    replace (Zpos p~1) with (1 + Zpos p + Zpos p) by lia.
    rewrite !Z.pow_add_r by lia. lia.
  - assert (H2 : 0 <= shr_m (SpecFloat.iter_pos shr_1 p r))
      by (rewrite IH by lia; apply div_pow2_nonneg; lia).
    rewrite IH, IH by lia. rewrite !Z.div_div by lia. f_equal.
    replace (Zpos p~0) with (Zpos p + Zpos p) by lia.
    rewrite !Z.pow_add_r by lia. lia.
  - rewrite shr_1_m by lia. reflexivity.
Qed.

Lemma iter_xO (d m : positive) :
  Zpos (Pos.iter xO m d) = Zpos m * 2 ^ Zpos d.
Proof.
  induction d as [|d IH] using Pos.peano_ind.
  - cbn. lia.
  - rewrite Pos.iter_succ, Pos2Z.inj_xO, IH, Pos2Z.inj_succ, Z.pow_succ_r by lia.
    lia.
Qed.

Lemma digits2_iter_xO (k m : positive) :
  Zpos (digits2_pos (Pos.iter xO m k)) = Zpos (digits2_pos m) + Zpos k.
Proof.
  induction k as [|k IH] using Pos.peano_ind.
  - cbn. lia.
  - rewrite Pos.iter_succ. cbn [digits2_pos]. rewrite Pos2Z.inj_succ, IH. lia.
Qed.

(** The exponent binary64 gives a number of [z] digits: 53 bits of
    precision, and nothing below 2^-1074. *)
Lemma fexp_64 (z : Z) : fexp prec emax z = Z.max (z - 53) (-1074).
Proof. reflexivity. Qed.

(** [shr_fexp] on a non-negative mantissa is a division by a power of two. *)
Lemma shr_fexp_m (m e : Z) (l : location) :
  0 <= m ->
  let n := fexp prec emax (Zdigits2 m + e) - e in
  shr_m (fst (shr_fexp prec emax m e l)) = (if 0 <? n then m / 2 ^ n else m)
  /\ snd (shr_fexp prec emax m e l) = (if 0 <? n then e + n else e).
Proof.
  intros Hm n. unfold shr_fexp, shr. fold n.
  assert (Hrec : shr_m (shr_record_of_loc m l) = m) by (now destruct l as [|[]]).
  destruct n as [|p|p]; cbn [fst snd Z.ltb Z.compare].
  - now split.
  - split; [|reflexivity]. rewrite iter_shr_1_m by lia. now rewrite Hrec.
  - now split.
Qed.

Lemma shr_fexp_nonneg (m e : Z) (l : location) :
  0 <= m -> 0 <= shr_m (fst (shr_fexp prec emax m e l)).
Proof.
  intros Hm. destruct (shr_fexp_m m e l Hm) as [-> _].
  destruct (0 <? fexp prec emax (Zdigits2 m + e) - e);
    [now apply div_pow2_nonneg | exact Hm].
Qed.

Lemma round_nearest_even_bounds (m : Z) (l : location) :
  m <= round_nearest_even m l <= m + 1.
Proof.
  destruct l as [|[]]; cbn [round_nearest_even]; try lia.
  destruct (Z.even m); lia.
Qed.

(** Rounding keeps the sign. *)
Lemma binary_round_aux_sign (sx : bool) (mx ex : Z) (lx : location) :
  0 <= mx -> has_sign sx (binary_round_aux prec emax sx mx ex lx).
Proof.
  intros Hm. unfold binary_round_aux.
  pose proof (shr_fexp_nonneg mx ex lx Hm) as Hr1.
  destruct (shr_fexp prec emax mx ex lx) as [r1 e1]. cbn [fst] in Hr1.
  pose proof (round_nearest_even_bounds (shr_m r1) (loc_of_shr_record r1)) as Hrd.
  set (m2 := round_nearest_even (shr_m r1) (loc_of_shr_record r1)) in *.
  assert (Hm2 : 0 <= m2) by lia.
  pose proof (shr_fexp_nonneg m2 e1 loc_Exact Hm2) as Hr2.
  destruct (shr_fexp prec emax m2 e1 loc_Exact) as [r2 e2]. cbn [fst] in Hr2.
  destruct (shr_m r2) as [|p|p]; cbn [has_sign]; try reflexivity; try lia.
  now destruct (e2 <=? emax - prec).
Qed.

Lemma binary_round_sign (sx : bool) (m : positive) (e : Z) :
  has_sign sx (binary_round prec emax sx m e).
Proof.
  unfold binary_round. destruct (shl_align _ _ _) as [mz ez].
  apply binary_round_aux_sign. lia.
Qed.

(** Positive finite numbers compare by exponent, then by mantissa. *)
Lemma finite_leb (M N : positive) (E E' : Z) :
  E < E' \/ (E = E' /\ Zpos M <= Zpos N) ->
  SFleb (S754_finite false M E) (S754_finite false N E') = true.
Proof.
  intros H. unfold SFleb, SFcompare.
  destruct (Z.compare_spec E E') as [HE|HE|HE].
  - destruct H as [H|[_ H]]; [lia|].
    rewrite Pos.compare_cont_spec.
    destruct (Pos.compare_spec M N) as [HM|HM|HM]; cbn [Pos.switch_Eq];
      try reflexivity.
    exfalso. apply Pos2Z.pos_lt_pos in HM. lia.
  - reflexivity.
  - exfalso. destruct H as [H|[H _]]; lia.
Qed.

Lemma two_52 : Zpos 4503599627370496 = 2 ^ 52.
Proof. reflexivity. Qed.

Lemma finite_le_one (M : positive) (E : Z) :
  E < -52 \/ (E = -52 /\ Zpos M <= 2 ^ 52) ->
  SFleb (S754_finite false M E) SF_one = true.
Proof.
  intros H. apply finite_leb. rewrite two_52. exact H.
Qed.

(** A positive number below 1 in canonical form stays at or below 1 when it
    is rounded. *)
Lemma round_aux_le_one (mz : positive) (e0 : Z) :
  e0 < 0 ->
  Zpos mz < 2 ^ (- e0) ->
  e0 <= fexp prec emax (Zpos (digits2_pos mz) + e0) ->
  SFleb (binary_round_aux prec emax false (Zpos mz) e0 loc_Exact) SF_one = true.
Proof.
  intros He0 Hmz Hcan.
  pose proof (digits2_pos_bounds mz) as Hd.
  set (dz := Zpos (digits2_pos mz)) in *.
  assert (HD : dz + e0 <= 0).
  { assert (dz - 1 < - e0); [|lia].
    apply (Z.pow_lt_mono_r_iff 2); lia. }
  rewrite fexp_64 in Hcan.
  set (t := Z.max (dz + e0 - 53) (-1074)) in *.
  assert (Ht : -1074 <= t <= -53) by lia.
  unfold binary_round_aux.
  destruct (shr_fexp_m (Zpos mz) e0 loc_Exact ltac:(lia)) as [Hm1 He1].
  cbn [Zdigits2] in Hm1, He1. fold dz in Hm1, He1.
  rewrite fexp_64 in Hm1, He1. fold t in Hm1, He1.
  destruct (shr_fexp prec emax (Zpos mz) e0 loc_Exact) as [r1 e1].
  cbn [fst snd] in Hm1, He1.
  assert (He1' : e1 = t).
  { rewrite He1. destruct (Z.ltb_spec 0 (t - e0)); lia. }
  assert (Hm1' : 0 <= shr_m r1 < 2 ^ (- t)).
  { rewrite Hm1. destruct (Z.ltb_spec 0 (t - e0)) as [Hn|Hn].
    - split; [apply div_pow2_nonneg; lia|].
      apply Z.div_lt_upper_bound; [apply Z.pow_pos_nonneg; lia|].
      rewrite <- Z.pow_add_r by lia.
      replace (t - e0 + - t) with (- e0) by lia. exact Hmz.
    - replace t with e0 by lia. lia. }
  clear Hm1 He1. subst e1.
  pose proof (round_nearest_even_bounds (shr_m r1) (loc_of_shr_record r1)) as Hrd.
  set (m2 := round_nearest_even (shr_m r1) (loc_of_shr_record r1)) in *.
  assert (Hm2 : 0 <= m2 <= 2 ^ (- t)) by lia.
  destruct (shr_fexp_m m2 t loc_Exact ltac:(lia)) as [HM HE].
  rewrite fexp_64 in HM, HE.
  destruct (shr_fexp prec emax m2 t loc_Exact) as [r2 e2].
  cbn [fst snd] in HM, HE.
  destruct (shr_m r2) as [|M|M] eqn:EM.
  - reflexivity.
  - assert (Hpos : 0 < m2).
    { destruct (Z.ltb_spec 0 (Z.max (Zdigits2 m2 + t - 53) (-1074) - t)).
      - destruct (Z.eq_dec m2 0) as [->|]; [|lia].
        rewrite Z.div_0_l in HM by (apply Z.pow_nonzero; lia). discriminate.
      - lia. }
    destruct m2 as [|p2|p2]; try lia. cbn [Zdigits2] in HM, HE.
    pose proof (digits2_pos_bounds p2) as Hd2.
    set (d2 := Zpos (digits2_pos p2)) in *.
    assert (HD2 : d2 + t <= 1).
    { assert (d2 - 1 <= - t); [|lia].
      apply (Z.pow_le_mono_r_iff 2); lia. }
    assert (He2 : e2 <= -52).
    { rewrite HE. destruct (Z.ltb_spec 0 (Z.max (d2 + t - 53) (-1074) - t)); lia. }
    replace (e2 <=? emax - prec) with true
      by (symmetry; apply Z.leb_le; change (emax - prec) with 971; lia).
    apply finite_le_one.
    destruct (Z.eq_dec e2 (-52)) as [Heq|Hne]; [right|left; lia].
    split; [exact Heq|].
    destruct (Z.ltb_spec 0 (Z.max (d2 + t - 53) (-1074) - t)) as [Hn|Hn]; [|lia].
    assert (Hn2 : Z.max (d2 + t - 53) (-1074) - t = -52 - t) by lia.
    rewrite Hn2 in HM. rewrite HM.
    apply Z.div_le_upper_bound; [apply Z.pow_pos_nonneg; lia|].
    rewrite <- Z.pow_add_r by lia.
    replace (-52 - t + 52) with (- t) by lia. lia.
  - exfalso.
    assert (0 <= Z.neg M); [|lia]. rewrite HM.
    destruct (0 <? _); [apply div_pow2_nonneg; lia | lia].
Qed.

Lemma binary_round_le_one (m : positive) (ez : Z) :
  ez < 0 -> Zpos m < 2 ^ (- ez) ->
  SFleb (binary_round prec emax false m ez) SF_one = true.
Proof.
  intros Hez Hm. unfold binary_round.
  pose proof (digits2_pos_bounds m) as Hd.
  set (d := Zpos (digits2_pos m)) in *.
  assert (HD : d + ez <= 0).
  { assert (d - 1 < - ez); [|lia].
    apply (Z.pow_lt_mono_r_iff 2); lia. }
  rewrite fexp_64. set (t := Z.max (d + ez - 53) (-1074)).
  assert (Ht : -1074 <= t <= -53) by lia.
  unfold shl_align. destruct (t - ez) as [|k|k] eqn:Hk.
  - apply round_aux_le_one; try assumption. fold d. rewrite fexp_64. fold t. lia.
  - apply round_aux_le_one; try assumption. fold d. rewrite fexp_64. fold t. lia.
  - assert (Hkz : Zpos k = ez - t) by lia.
    apply round_aux_le_one.
    + lia.
    + rewrite iter_xO.
      replace (- t) with (- ez + Zpos k) by lia.
      rewrite Z.pow_add_r by lia.
      apply Z.mul_lt_mono_pos_r; [apply Z.pow_pos_nonneg; lia | exact Hm].
    + rewrite digits2_iter_xO. fold d. rewrite fexp_64.
      replace (d + Zpos k + t) with (d + ez) by lia. fold t. lia.
Qed.

Lemma nonneg_cases (x : spec_float) :
  SFleb (S754_zero false) x = true ->
  match x with
  | S754_nan => False
  | S754_zero _ => True
  | S754_infinity s | S754_finite s _ _ => s = false
  end.
Proof.
  destruct x as [s|s| |s m e]; try destruct s; cbn; try discriminate; auto.
Qed.

Lemma has_sign_false_nonneg (x : spec_float) :
  has_sign false x -> SFleb (S754_zero false) x = true.
Proof. destruct x as [s|s| |s m e]; cbn; intros H; subst; easy. Qed.

Lemma has_sign_true_le_one (x : spec_float) :
  has_sign true x -> SFleb x SF_one = true.
Proof.
  unfold SF_one. destruct x as [s|s| |s m e]; cbn [has_sign]; intros H;
    subst; easy.
Qed.

(** The rounded sum of two non-negative numbers is not negative. *)
Lemma SFadd_nonneg (x y : spec_float) :
  SFleb (S754_zero false) x = true -> SFleb (S754_zero false) y = true ->
  SFleb (S754_zero false) (SFadd prec emax x y) = true.
Proof.
  intros Hx Hy. apply nonneg_cases in Hx, Hy.
  destruct x as [sx|sx| |sx mx ex], y as [sy|sy| |sy my ey];
    try contradiction; subst;
    lazymatch goal with
    | |- context [SFadd _ _ (S754_finite _ _ _) (S754_finite _ _ _)] =>
        unfold SFadd; cbn [cond_Zopp Z.add]; unfold binary_normalize;
        apply has_sign_false_nonneg, binary_round_sign
    | _ => try destruct sx; try destruct sy; reflexivity
    end.
Qed.

Lemma shl_align_fst (m : positive) (e e' : Z) :
  e' <= e -> Zpos (fst (shl_align m e e')) = Zpos m * 2 ^ (e - e').
Proof.
  intros He. unfold shl_align. destruct (e' - e) as [|k|k] eqn:Hk; cbn [fst].
  - replace (e - e') with 0 by lia. cbn. lia.
  - lia.
  - rewrite iter_xO. f_equal. f_equal. lia.
Qed.

(** A valid positive number at or below 1 is at most 2^(-e) in mantissa. *)
Lemma le_one_bound (m : positive) (e : Z) :
  SpecFloat.valid_binary prec emax (S754_finite false m e) = true ->
  SFleb (S754_finite false m e) SF_one = true ->
  e <= -52 /\ Zpos m <= 2 ^ (- e).
Proof.
  unfold SpecFloat.valid_binary, bounded, canonical_mantissa. intros Hv Hle.
  apply andb_true_iff in Hv as [Hc _]. apply Z.eqb_eq in Hc.
  rewrite fexp_64 in Hc.
  pose proof (digits2_pos_bounds m) as Hd.
  set (d := Zpos (digits2_pos m)) in *.
  assert (Hd53 : d <= 53) by lia.
  assert (Hm53 : Zpos m < 2 ^ 53).
  { apply Z.lt_le_trans with (2 ^ d); [lia|]. apply Z.pow_le_mono_r; lia. }
  unfold SFleb, SF_one, SFcompare in Hle.
  destruct (Z.compare_spec e (-52)) as [He|He|He]; try discriminate.
  - split; [lia|]. subst e. rewrite Pos.compare_cont_spec in Hle.
    destruct (Pos.compare_spec m 4503599627370496) as [HM|HM|HM];
      cbn [Pos.switch_Eq] in Hle; try discriminate.
    + subst m. change (- -52) with 52. rewrite <- two_52. lia.
    + apply Pos2Z.pos_lt_pos in HM. change (- -52) with 52.
      rewrite <- two_52. lia.
  - split; [lia|]. apply Z.le_trans with (2 ^ 53); [lia|].
    apply Z.pow_le_mono_r; lia.
Qed.

(** The rounded difference of a number of [0, 1] and a non-negative number
    is at most 1. *)
Lemma SFsub_le_one (x y : spec_float) :
  SpecFloat.valid_binary prec emax x = true ->
  SFleb (S754_zero false) x = true ->
  SFleb x SF_one = true ->
  SFleb (S754_zero false) y = true ->
  SFleb (SFsub prec emax x y) SF_one = true.
Proof.
  intros Hv Hx Hx1 Hy. apply nonneg_cases in Hx, Hy.
  destruct x as [sx|sx| |sx mx ex], y as [sy|sy| |sy my ey];
    try contradiction; subst;
    lazymatch goal with
    | |- context [SFsub _ _ (S754_finite _ _ _) (S754_finite _ _ _)] => idtac
    | |- context [SFsub _ _ (S754_infinity _) _] => discriminate Hx1
    | _ => try destruct sx; try destruct sy; first [exact Hx1 | reflexivity]
    end.
  - destruct (le_one_bound mx ex Hv Hx1) as [Hex Hmx]. unfold SFsub.
    cbn [cond_Zopp]. set (ez := Z.min ex ey).
    assert (Hez : ez <= ex) by (unfold ez; lia).
    assert (Hez' : ez <= ey) by (unfold ez; lia).
    pose proof (shl_align_fst mx ex ez Hez) as Hx'.
    pose proof (shl_align_fst my ey ez Hez') as Hy'.
    set (mx' := fst (shl_align mx ex ez)) in *.
    set (my' := fst (shl_align my ey ez)) in *.
    assert (Hbound : Zpos mx' <= 2 ^ (- ez)).
    { rewrite Hx'. replace (- ez) with (- ex + (ex - ez)) by lia.
      rewrite Z.pow_add_r by lia.
      apply Z.mul_le_mono_nonneg_r; [apply Z.pow_nonneg; lia | exact Hmx]. }
    remember (Zpos mx' - Zpos my') as z eqn:Hz.
    unfold binary_normalize. destruct z as [|m|m].
    + reflexivity.
    + apply binary_round_le_one; lia.
    + apply has_sign_true_le_one, binary_round_sign.
Qed.

End Rounding.

Section StepBound.
Open Scope float_scope.
Open Scope string_scope.

Lemma float_add_nonneg (x y : float) :
  PrimFloat.leb 0 x = true -> PrimFloat.leb 0 y = true ->
  PrimFloat.leb 0 (x + y) = true.
Proof.
  rewrite !FloatAxioms.leb_spec, FloatAxioms.add_spec, Prim2SF_0.
  apply SFadd_nonneg.
Qed.

Lemma float_sub_le_one (x y : float) :
  PrimFloat.leb 0 x = true -> PrimFloat.leb x 1 = true ->
  PrimFloat.leb 0 y = true ->
  PrimFloat.leb (x - y) 1 = true.
Proof.
  rewrite !FloatAxioms.leb_spec, FloatAxioms.sub_spec, Prim2SF_0, Prim2SF_1.
  apply SFsub_le_one, FloatAxioms.Prim2SF_valid.
Qed.

Lemma SFeqb_refl (x : spec_float) : x <> S754_nan -> SFeqb x x = true.
Proof.
  intros Hx. unfold SFeqb.
  destruct x as [s|s| |s m e]; try destruct s; cbn;
    try reflexivity; try congruence;
    rewrite Z.compare_refl, Pos.compare_cont_refl; reflexivity.
Qed.

Lemma SFleb_numbers (x y : spec_float) :
  SFleb x y = true -> x <> S754_nan /\ y <> S754_nan.
Proof.
  unfold SFleb.
  destruct x as [s|s| |s m e], y as [s'|s'| |s' m' e']; cbn; intros H;
    split; congruence.
Qed.

(** Only numbers are ordered: neither side of a [<=] that holds is a NaN. *)
Lemma float_leb_numbers (a b : float) :
  PrimFloat.leb a b = true ->
  PrimFloat.eqb a a = true /\ PrimFloat.eqb b b = true.
Proof.
  rewrite FloatAxioms.leb_spec, !FloatAxioms.eqb_spec. intros H.
  apply SFleb_numbers in H as [Ha Hb].
  split; apply SFeqb_refl; assumption.
Qed.

Lemma float_leb_not_ltb_eqb (a b : float) :
  PrimFloat.leb a b = true -> PrimFloat.ltb a b = false ->
  PrimFloat.eqb a b = true.
Proof.
  rewrite FloatAxioms.ltb_spec, FloatAxioms.leb_spec, FloatAxioms.eqb_spec.
  unfold SFltb, SFleb, SFeqb.
  destruct (SFcompare _ _) as [[]|]; congruence.
Qed.

Lemma float_eqb_sym (a b : float) : PrimFloat.eqb a b = PrimFloat.eqb b a.
Proof.
  rewrite !FloatAxioms.eqb_spec. unfold SFeqb.
  rewrite (SFcompare_antisym (Prim2SF a) (Prim2SF b)).
  now destruct (SFcompare _ _) as [[]|].
Qed.

Lemma float_eqb_leb (a b : float) :
  PrimFloat.eqb a b = true -> PrimFloat.leb a b = true.
Proof.
  rewrite FloatAxioms.leb_spec, FloatAxioms.eqb_spec. unfold SFleb, SFeqb.
  destruct (SFcompare _ _) as [[]|]; congruence.
Qed.

(** On a number that is not negative the clamp is [min(1, v)], and on one
    that is at most 1 it is [max(0, v)], up to the sign of a zero. *)
Lemma clamp_nonneg (v : float) :
  PrimFloat.leb 0 v = true ->
  PrimFloat.eqb (Py.max MIN_VOLUME (Py.min MAX_VOLUME v)) (Py.min 1 v) = true.
Proof.
  intros Hv. destruct (float_leb_numbers _ _ Hv) as [_ Hn].
  unfold Py.max, Py.min, MIN_VOLUME, MAX_VOLUME.
  cbn [ltb lit_0_0 lit_1_0 Float64].
  destruct (PrimFloat.ltb v 1) eqn:H1.
  - destruct (PrimFloat.ltb 0 v) eqn:H0; [exact Hn|].
    exact (float_leb_not_ltb_eqb _ _ Hv H0).
  - reflexivity.
Qed.

Lemma clamp_le_one (v : float) :
  PrimFloat.leb v 1 = true ->
  PrimFloat.eqb (Py.max MIN_VOLUME (Py.min MAX_VOLUME v)) (Py.max 0 v) = true.
Proof.
  intros Hv. destruct (float_leb_numbers _ _ Hv) as [Hn _].
  unfold Py.max, Py.min, MIN_VOLUME, MAX_VOLUME.
  cbn [ltb lit_0_0 lit_1_0 Float64].
  destruct (PrimFloat.ltb v 1) eqn:H1.
  - now destruct (PrimFloat.ltb 0 v).
  - pose proof (float_leb_not_ltb_eqb _ _ Hv H1) as He.
    rewrite float_eqb_sym in He.
    rewrite (float_above_1_gt_0 v (float_eqb_leb _ _ He)).
    change (PrimFloat.ltb 0 1) with true. cbn iota. exact He.
Qed.

(** C4, as stated, fails twice over.  At the defaults (level 0.5, step 0.02)
    [volume_up] stores the binary64 sum 0.5 + 0.02 and [volume_down] the
    difference 0.5 - 0.02; the level then differs from 0.5 by
    0.020000000000000018 either way, which is not [min(step, 1 - L)] = 0.02
    nor [min(step, L)] = 0.02.  And [step] is whatever number the controller
    was built with: with step -0.5 and the level at 0.25, [volume_up] takes
    the level to 0.0, a change of -0.25, while [min(step, 1 - L)] is -0.5. *)
Lemma step_bound_counterexamples :
  (let L := current_volume (self fresh) in
   let st := step (self fresh) in
   let up := current_volume (self (snd (volume_up fresh))) in
   let down := current_volume (self (snd (volume_down fresh))) in
   L = 0.5 /\ st = 0.02 /\ in_unit L = true
   /\ up = 0.5 + 0.02 /\ up - L = 0.020000000000000018
   /\ Py.min st (1 - L) = 0.02
   /\ PrimFloat.eqb (up - L) (Py.min st (1 - L)) = false
   /\ down = 0.5 - 0.02 /\ L - down = 0.020000000000000018
   /\ Py.min st L = 0.02
   /\ PrimFloat.eqb (L - down) (Py.min st L) = false)
  /\
  (let w := snd (set_volume 0.25
                   (__init__ "192.168.1.100" 7001 9001 (-0.5) (Some [1; 2]%Z))) in
   let L := current_volume (self w) in
   let L' := current_volume (self (snd (volume_up w))) in
   L = 0.25 /\ in_unit L = true /\ L' = 0
   /\ L' - L = -0.25
   /\ Py.min (step (self w)) (1 - L) = -0.5
   /\ PrimFloat.eqb (L' - L) (Py.min (step (self w)) (1 - L)) = false).
Proof. repeat split. Qed.

(** C4, amended: in every state whose level [L] is in [0, 1] and whose step
    is not negative, [volume_up] sets the level to [min(1, L + step)] and
    [volume_down] sets it to [max(0, L - step)], where [L + step] and
    [L - step] are the binary64 sum and difference the code computes and
    equality is Python's [==] (the two sides may be zeros of different
    sign). *)
Theorem step_bound_binary64 (w : world float) :
  let L := current_volume (self w) in
  let st := step (self w) in
  in_unit L = true -> PrimFloat.leb 0 st = true ->
  PrimFloat.eqb (current_volume (self (snd (volume_up w))))
                (Py.min 1 (L + st)) = true
  /\ PrimFloat.eqb (current_volume (self (snd (volume_down w))))
                   (Py.max 0 (L - st)) = true.
Proof.
  intros L st HL Hst. unfold in_unit in HL.
  cbn [leb lit_0_0 lit_1_0 Float64] in HL.
  apply andb_true_iff in HL as [HL0 HL1].
  rewrite volume_up_level, volume_down_level. fold L st.
  cbn [add sub Float64]. split.
  - apply clamp_nonneg, float_add_nonneg; assumption.
  - apply clamp_le_one, float_sub_le_one; assumption.
Qed.

Lemma step_bound_binary64_witness :
  in_unit (current_volume (self fresh)) = true
  /\ PrimFloat.leb 0 (step (self fresh)) = true
  /\ PrimFloat.eqb (current_volume (self (snd (volume_up fresh))))
                   (Py.min 1 (0.5 + 0.02)) = true
  /\ PrimFloat.eqb (current_volume (self (snd (volume_down fresh))))
                   (Py.max 0 (0.5 - 0.02)) = true.
Proof.
  split; [reflexivity|]. split; [reflexivity|].
  exact (step_bound_binary64 fresh eq_refl eq_refl).
Defined.

End StepBound.

(** ** The codec: decoding undoes encoding *)

Section CodecFacts.
Import Codec.
Open Scope Z_scope.

Lemma Z_of_byte_of_Z (z : Z) : Z_of_byte (byte_of_Z z) = z mod 256.
Proof.
  unfold Z_of_byte, byte_of_Z.
  assert (Hr : 0 <= z mod 256 < 256) by (apply Z.mod_pos_bound; lia).
  destruct (Byte.of_N (Z.to_N (z mod 256))) as [b|] eqn:Hb.
  - rewrite (Byte.to_of_N _ Hb). apply Z2N.id. lia.
  - apply Byte.of_N_None_iff in Hb. lia.
Qed.

Lemma decode_word_encode (u : Z) (rest : list byte) :
  0 <= u < 2 ^ 32 ->
  decode_word (encode_word u ++ rest) = Ok (u, rest).
Proof.
  intros Hu. unfold encode_word, decode_word. cbn [app].
  rewrite !Z_of_byte_of_Z, !Z.shiftr_div_pow2, !Z.shiftl_mul_pow2 by lia.
  do 2 f_equal.
  change (2 ^ 24) with 16777216. change (2 ^ 16) with 65536.
  change (2 ^ 8) with 256. change (2 ^ 32) with 4294967296 in Hu.
  Z.to_euclidean_division_equations. lia.
Qed.

Lemma signed_mod (n : Z) :
  - 2 ^ 31 <= n < 2 ^ 31 -> signed (n mod 2 ^ 32) = n.
Proof.
  intros Hn. unfold signed.
  change (2 ^ 31) with 2147483648 in *. change (2 ^ 32) with 4294967296.
  destruct (n mod 4294967296 <? 2147483648) eqn:Hlt;
    [apply Z.ltb_lt in Hlt | apply Z.ltb_ge in Hlt];
    Z.to_euclidean_division_equations; lia.
Qed.

Lemma until_nul_app (text rest : list byte) :
  forallb (fun b => negb (Byte.eqb b x00)) text = true ->
  until_nul (text ++ x00 :: rest) = Some text.
Proof.
  induction text as [|b text IH]; cbn [forallb app until_nul]; intros Hok.
  - reflexivity.
  - apply andb_true_iff in Hok as [Hb Hrest].
    apply negb_true_iff in Hb. rewrite Hb, (IH Hrest). reflexivity.
Qed.

Lemma padding_pos (n : nat) : exists k, padding n = S k.
Proof.
  unfold padding. pose proof (Nat.mod_upper_bound n 4 ltac:(discriminate)).
  exists (3 - n mod 4)%nat. lia.
Qed.

Lemma decode_string_encode (s : string) (rest : list byte) :
  valid_string s = true ->
  decode_string (encode_string s ++ rest) = Ok (s, rest).
Proof.
  unfold valid_string, encode_string, decode_string. intros Hok.
  set (text := list_byte_of_string s) in *.
  destruct (padding_pos (List.length text)) as [k Hk].
  rewrite Hk, <- app_assoc. cbn [repeat app].
  rewrite (until_nul_app text _ Hok). cbv zeta. rewrite Hk.
  assert (Hlen : (List.length text + S k <=?
                  List.length (text ++ x00 :: repeat x00 k ++ rest))%nat = true).
  { apply Nat.leb_le. rewrite length_app. cbn [List.length].
    rewrite length_app, repeat_length. lia. }
  rewrite Hlen. do 2 f_equal.
  - apply string_of_list_byte_of_string.
  - rewrite skipn_app, skipn_all2 by lia.
    replace (List.length text + S k - List.length text)%nat with (S k) by lia.
    cbn [app skipn]. rewrite skipn_app, skipn_all2 by (rewrite repeat_length; lia).
    rewrite repeat_length, Nat.sub_diag. reflexivity.
Qed.

Lemma tags_valid (args : list argument) :
  forallb (fun b => negb (Byte.eqb b x00))
    (list_byte_of_string (string_of_list_ascii (map tag args))) = true.
Proof.
  induction args as [|a args IH]; [reflexivity|].
  cbn [map string_of_list_ascii]. unfold list_byte_of_string in *.
  cbn [list_ascii_of_string map forallb]. rewrite IH.
  destruct a; reflexivity.
Qed.

Lemma decode_arguments_encode (args : list argument) (rest : list byte) :
  forallb valid_argument args = true ->
  decode_arguments (string_of_list_ascii (map tag args))
    (List.concat (map encode_argument args) ++ rest) = Ok args.
Proof.
  induction args as [|a args IH]; intros Hok; [reflexivity|].
  cbn [forallb] in Hok. apply andb_true_iff in Hok as [Ha Hargs].
  cbn [map List.concat string_of_list_ascii decode_arguments].
  rewrite <- app_assoc.
  destruct a as [bits|n|s]; cbn [tag encode_argument valid_argument] in *.
  - apply andb_true_iff in Ha as [H0 H1].
    apply Z.leb_le in H0. apply Z.ltb_lt in H1.
    cbn [Ascii.eqb Bool.eqb].
    rewrite decode_word_encode by lia. cbn [and_then].
    rewrite (IH Hargs). reflexivity.
  - apply andb_true_iff in Ha as [H0 H1].
    apply Z.leb_le in H0. apply Z.ltb_lt in H1.
    cbn [Ascii.eqb Bool.eqb].
    rewrite decode_word_encode by (apply Z.mod_pos_bound; lia). cbn [and_then].
    rewrite (IH Hargs), signed_mod by lia. reflexivity.
  - cbn [Ascii.eqb Bool.eqb].
    rewrite (decode_string_encode s _ Ha). cbn [and_then].
    rewrite (IH Hargs). reflexivity.
Qed.

(** The datagram that [test_connectivity.py] writes out by hand,
    [b'/ping\x00\x00\x00,\x00\x00\x00'], is the encoding of the message
    with address "/ping" and no arguments, and decodes to it. *)
Example ping_datagram :
  let datagram := [x2f; x70; x69; x6e; x67; x00; x00; x00; x2c; x00; x00; x00] in
  encode {| address := "/ping"; arguments := [] |} = datagram
  /\ decode datagram = Ok {| address := "/ping"; arguments := [] |}.
Proof. split; reflexivity. Qed.

(** C9: for every message whose address and string arguments contain no NUL
    and whose float patterns and integers fit 32 bits, decoding the encoding
    gives back the same address and the same arguments, in order. *)
Theorem decode_encode_roundtrip (m : ControlMessage) :
  valid m = true -> decode (encode m) = Ok m.
Proof.
  destruct m as [addr args]. unfold valid, encode, decode.
  cbn [address arguments]. intros Hok.
  apply andb_true_iff in Hok as [Haddr Hargs].
  rewrite (decode_string_encode addr _ Haddr). cbn [and_then].
  rewrite decode_string_encode.
  - cbn [and_then]. rewrite <- (app_nil_r (List.concat _)).
    rewrite (decode_arguments_encode args [] Hargs). reflexivity.
  - unfold valid_string, list_byte_of_string. cbn [list_ascii_of_string map forallb].
    apply (tags_valid args).
Qed.

Lemma decode_encode_roundtrip_witness :
  let m := {| address := "/1/mainDim"; arguments := [AFloat 0x3F800000] |} in
  binary32_value 0x3F800000 = 1%float
  /\ valid m = true
  /\ decode (encode m) = Ok m.
Proof.
  split; [reflexivity|]. split; [reflexivity|].
  exact (decode_encode_roundtrip
           {| address := "/1/mainDim"; arguments := [AFloat 0x3F800000] |} eq_refl).
Defined.

End CodecFacts.

(** * Further properties of the controller *)

Import Session.

Section SessionFacts.
Context {F : Type} {N : Number F}.
Variable float_of_str : string -> option F.

(** What one call does to the three flags and to the length of the wire. *)
Lemma call_flags (o : op F) (w : world F) :
  let w' := snd (call float_of_str o w) in
  received_feedback (self w') = received_feedback (self w) || is_feedback o
  /\ running (self w') = running (self w) && negb (is_stop o)
  /\ is_muted (self w') = xorb (is_muted (self w)) (is_toggle o)
  /\ List.length (wire w') =
       (List.length (wire w)
        + datagrams (List.length (volume_addresses (self w))) o)%nat.
Proof.
  destruct o; cbn [call is_feedback is_stop is_toggle datagrams sets_volume].
  - rewrite set_volume_spec. cbn [snd self wire]. destruct w as [c tr].
    cbn. rewrite length_app. cbn. rewrite length_app, length_map. cbn.
    rewrite orb_false_r, andb_true_r, xorb_false_r. repeat split. lia.
  - unfold volume_up, bind, attr. rewrite set_volume_spec. destruct w as [c tr].
    cbn. rewrite length_app. cbn. rewrite length_app, length_map. cbn.
    rewrite orb_false_r, andb_true_r, xorb_false_r. repeat split. lia.
  - unfold volume_down, bind, attr. rewrite set_volume_spec. destruct w as [c tr].
    cbn. rewrite length_app. cbn. rewrite length_app, length_map. cbn.
    rewrite orb_false_r, andb_true_r, xorb_false_r. repeat split. lia.
  - destruct w as [c tr]. cbn. rewrite length_app. cbn.
    rewrite orb_false_r, andb_true_r. repeat split.
  - unfold set_unity_gain. rewrite set_volume_spec. destruct w as [c tr].
    cbn. rewrite length_app. cbn. rewrite length_app, length_map. cbn.
    rewrite orb_false_r, andb_true_r, xorb_false_r. repeat split. lia.
  - destruct w as [c tr]. cbn.
    rewrite orb_false_r, andb_false_r, xorb_false_r. repeat split. lia.
  - rewrite feedback_spec. destruct w as [c tr]. cbn [self wire].
    rewrite orb_true_r, andb_true_r, xorb_false_r, Nat.add_0_r.
    destruct args as [|a0 rest];
      [destruct (received_feedback c) eqn:E; cbn; repeat split; assumption|].
    destruct (contains (volume_addresses c) address);
      [|destruct (received_feedback c) eqn:E; cbn; repeat split; assumption].
    destruct (float_value float_of_str a0) as [y|];
      destruct (received_feedback c) eqn:E; cbn; repeat split; assumption.
Qed.

Lemma run_keeps_addresses (ops : list (op F)) :
  forall w : world F,
  volume_addresses (self (run float_of_str ops w)) = volume_addresses (self w).
Proof.
  induction ops as [|o rest IH]; intros w; cbn [run]; [reflexivity|].
  rewrite IH. apply (call_keeps_configuration float_of_str o w).
Qed.

End SessionFacts.

Section Sessions.
Open Scope float_scope.
Open Scope string_scope.

(** X1: [received_feedback] records whether any inbound message has been
    handled.  After any sequence of calls it is [True] exactly when it was
    [True] before or the sequence contains a feedback call, whatever the
    message's address or arguments and even if the handler raised; no
    operation resets it. *)
Theorem received_feedback_after_run (float_of_str : string -> option float)
    (ops : list (op float)) (w : world float) :
  received_feedback (self (run float_of_str ops w)) =
  received_feedback (self w) || existsb is_feedback ops.
Proof.
  revert w. induction ops as [|o rest IH]; intros w; cbn [run existsb].
  - now rewrite orb_false_r.
  - rewrite IH.
    destruct (call_flags float_of_str o w) as (-> & _).
    now rewrite orb_assoc.
Qed.

(** X2: [running] is cleared by [stop] and by nothing else, and nothing sets
    it again: after any sequence of calls it is [True] exactly when it was
    [True] before and the sequence contains no [stop]. *)
Theorem running_after_run (float_of_str : string -> option float)
    (ops : list (op float)) (w : world float) :
  running (self (run float_of_str ops w)) =
  running (self w) && negb (existsb is_stop ops).
Proof.
  revert w. induction ops as [|o rest IH]; intros w; cbn [run existsb].
  - now rewrite andb_true_r.
  - rewrite IH.
    destruct (call_flags float_of_str o w) as (_ & -> & _).
    now rewrite negb_orb, andb_assoc.
Qed.

(** X3: [is_muted] depends on the [toggle_mute] calls alone: after any
    sequence of calls it is the initial value flipped once per toggle.  Volume
    operations, [stop] and inbound messages (for any address, a mute address
    included) never change it. *)
Theorem is_muted_after_run (float_of_str : string -> option float)
    (ops : list (op float)) (w : world float) :
  is_muted (self (run float_of_str ops w)) =
  xorb (is_muted (self w)) (Nat.odd (List.length (filter is_toggle ops))).
Proof.
  revert w. induction ops as [|o rest IH]; intros w; cbn [run filter].
  - cbn. now rewrite xorb_false_r.
  - rewrite IH.
    destruct (call_flags float_of_str o w) as (_ & _ & -> & _).
    destruct (is_toggle o); cbn [List.length].
    + rewrite Nat.odd_succ, <- Nat.negb_odd.
      destruct (is_muted (self w)), (Nat.odd (List.length (filter is_toggle rest)));
        reflexivity.
    + now rewrite xorb_false_r.
Qed.

(** X4: the feedback handler only listens.  Whatever the address and the
    arguments, and whether it returns or raises, it sends no datagram and
    creates no socket: the wire is left as it was. *)
Theorem feedback_sends_nothing (float_of_str : string -> option float)
    (address : string) (args : list (value float)) (w : world float) :
  wire (snd (_handle_osc_feedback float_of_str address args w)) = wire w.
Proof.
  rewrite feedback_spec. destruct w as [c tr]. cbn [self wire].
  destruct args as [|a0 rest]; [reflexivity|].
  destruct (contains (volume_addresses c) address); [|reflexivity].
  now destruct (float_value float_of_str a0).
Qed.

(** X5: the traffic of a session is fixed by its calls.  With [n] fader
    addresses, each of [set_volume], [volume_up], [volume_down] and
    [set_unity_gain] sends [n + 2] datagrams, each [toggle_mute] one, and
    [stop] and inbound messages none; the wire after any sequence is longer by
    the sum. *)
Theorem datagrams_after_run (float_of_str : string -> option float)
    (ops : list (op float)) (w : world float) :
  List.length (wire (run float_of_str ops w)) =
  (List.length (wire w)
   + list_sum (map (datagrams (List.length (volume_addresses (self w)))) ops))%nat.
Proof.
  revert w. induction ops as [|o rest IH]; intros w; cbn [run map list_sum].
  - now rewrite Nat.add_0_r.
  - rewrite IH.
    destruct (call_flags float_of_str o w) as (_ & _ & _ & ->).
    destruct (call_keeps_configuration float_of_str o w) as (_ & -> & _).
    unfold list_sum. cbn [fold_right]. lia.
Qed.

End Sessions.

Section WireFacts.
Context {F : Type} {N : Number F} {L : NumberLaws F}.
Variable float_of_str : string -> option F.

Lemma payloads_app (tr1 tr2 : list (event F)) :
  payloads (tr1 ++ tr2) = (payloads tr1 ++ payloads tr2)%list.
Proof. apply flat_map_app. Qed.

Lemma payloads_levels (addrs : list string) (v : F) :
  forallb in_unit (payloads (map (fun addr => Sent addr v) addrs)) =
  forallb (fun _ => in_unit v) addrs.
Proof.
  induction addrs as [|a rest IH]; [reflexivity|].
  cbn [map payloads flat_map app forallb]. now rewrite <- IH.
Qed.

Lemma payloads_sent (a : string) (v : F) (tr : list (event F)) :
  payloads (Sent a v :: tr) = v :: payloads tr.
Proof. reflexivity. Qed.

Lemma in_unit_0 : in_unit (lit_0_0 : F) = true.
Proof. unfold in_unit. now rewrite leb_0_0, leb_0_1. Qed.

Lemma in_unit_1 : in_unit (lit_1_0 : F) = true.
Proof. unfold in_unit. now rewrite leb_0_1, leb_1_1. Qed.

Lemma forallb_const {A : Type} (b : bool) (xs : list A) :
  b = true -> forallb (fun _ => b) xs = true.
Proof. intros ->. now induction xs. Qed.

(** One call appends only payloads within [0, 1], in every state. *)
Lemma call_sends_in_unit (o : op F) (w : world F) :
  forallb in_unit (payloads (wire w)) = true ->
  forallb in_unit (payloads (wire (snd (call float_of_str o w)))) = true.
Proof.
  intros Hw.
  assert (Hbatch : forall v,
             forallb in_unit
               (payloads (wire w ++ Sent BUS_OUTPUT lit_1_0
                            :: map (fun addr => Sent addr
                                      (max MIN_VOLUME (min MAX_VOLUME v)))
                                 (volume_addresses (self w))
                            ++ [Sent MASTER_VOLUME
                                  (max MIN_VOLUME (min MAX_VOLUME v))])) = true).
  { intros v. rewrite payloads_app, forallb_app, Hw, payloads_sent.
    cbn [forallb andb].
    rewrite in_unit_1, payloads_app, forallb_app, payloads_levels.
    rewrite (forallb_const _ _ (clamp_in_unit v)), payloads_sent.
    cbn [forallb andb]. now rewrite (clamp_in_unit v). }
  destruct o; cbn [call].
  - rewrite set_volume_spec. apply Hbatch.
  - unfold volume_up, bind, attr. rewrite set_volume_spec. apply Hbatch.
  - unfold volume_down, bind, attr. rewrite set_volume_spec. apply Hbatch.
  - destruct w as [c tr]. cbn -[payloads in_unit] in *.
    rewrite payloads_app, forallb_app, Hw, payloads_sent. cbn [forallb andb payloads flat_map].
    destruct (negb (is_muted c)); now rewrite ?in_unit_0, ?in_unit_1.
  - unfold set_unity_gain. rewrite set_volume_spec. apply Hbatch.
  - destruct w as [c tr]. exact Hw.
  - rewrite feedback_spec. destruct w as [c tr]. cbn [self wire] in *.
    destruct args as [|a0 rest]; [exact Hw|].
    destruct (contains (volume_addresses c) address); [|exact Hw].
    now destruct (float_value float_of_str a0).
Qed.

Lemma run_sends_in_unit (ops : list (op F)) :
  forall w : world F,
  forallb in_unit (payloads (wire w)) = true ->
  forallb in_unit (payloads (wire (run float_of_str ops w))) = true.
Proof.
  induction ops as [|o rest IH]; intros w Hw; cbn [run]; [exact Hw|].
  apply IH. now apply call_sends_in_unit.
Qed.

Lemma init_sends_in_unit (ip : string) (port receive_port : Z) (step : F)
    (faders : option (list Z)) :
  forallb in_unit
    (payloads (wire (__init__ ip port receive_port step faders))) = true.
Proof. cbn. now rewrite in_unit_1. Qed.

(** The clamp leaves its own results alone. *)
Lemma clamp_fixed (v : F) :
  let cv := max MIN_VOLUME (min MAX_VOLUME v) in
  max MIN_VOLUME (min MAX_VOLUME cv) = cv.
Proof.
  unfold max, min, MIN_VOLUME, MAX_VOLUME. cbn zeta.
  assert (H00 : ltb (lit_0_0 : F) lit_0_0 = false) by (apply leb_not_gt, leb_0_0).
  assert (H11 : ltb (lit_1_0 : F) lit_1_0 = false) by (apply leb_not_gt, leb_1_1).
  destruct (ltb v lit_1_0) eqn:Hv.
  - destruct (ltb lit_0_0 v) eqn:H0.
    + now rewrite Hv, H0.
    + now rewrite ltb_0_1, H00.
  - now rewrite ltb_0_1, H11, ltb_0_1.
Qed.

End WireFacts.

Section Transmission.
Open Scope float_scope.
Open Scope string_scope.

(** X6: the controller never transmits a value outside [0.0, 1.0].  From
    construction on, after any sequence of calls, every datagram it has sent
    carries a payload in [0, 1], even when inbound messages have put
    [current_volume] itself outside that range or made it a NaN. *)
Theorem sent_payloads_in_unit (float_of_str : string -> option float)
    (ip : string) (port receive_port : Z) (step : float)
    (faders : option (list Z)) (ops : list (op float)) :
  forallb in_unit
    (payloads (wire (run float_of_str ops
                       (__init__ ip port receive_port step faders)))) = true.
Proof.
  apply run_sends_in_unit. apply init_sends_in_unit.
Qed.

(** X7: [set_volume] is idempotent on the object.  Calling it again with the
    same argument, or with the level it has just stored, leaves every
    attribute as the first call left it, and sends the same batch of datagrams
    once more; so does a second [set_unity_gain]. *)
Theorem set_volume_idempotent (v : float) (w : world float) :
  let w1 := snd (set_volume v w) in
  let batch :=
    (Sent BUS_OUTPUT 1
     :: map (fun addr => Sent addr (current_volume (self w1)))
          (volume_addresses (self w))
     ++ [Sent MASTER_VOLUME (current_volume (self w1))])%list in
  wire w1 = (wire w ++ batch)%list
  /\ snd (set_volume v w1) = {| self := self w1; wire := (wire w1 ++ batch)%list |}
  /\ snd (set_volume (current_volume (self w1)) w1) =
       {| self := self w1; wire := (wire w1 ++ batch)%list |}
  /\ self (snd (set_unity_gain (snd (set_unity_gain w)))) =
       self (snd (set_unity_gain w)).
Proof.
  unfold set_unity_gain. rewrite !set_volume_spec.
  destruct w as [c tr]. destruct c as [i p rp st cur m rn fs addrs seen].
  cbn [snd self wire current_volume set_current_volume volume_addresses].
  rewrite (clamp_fixed v). repeat split.
Qed.

End Transmission.

(** ** Fader addresses *)

Section Addresses.
Open Scope string_scope.

Lemma str_inj (a b : Z) : str a = str b -> a = b.
Proof.
  unfold str. intros Heq. apply DecimalZ.to_int_inj.
  assert (Hnil : forall z : Z,
             NilZero.int_of_string (NilZero.string_of_int (Z.to_int z)) =
             Some (Z.to_int z)).
  { intros z. apply NilZero.isi; destruct z; cbn; try discriminate;
      intros [= Hp]; now apply DecimalPos.Unsigned.to_uint_nonnil in Hp. }
  apply (f_equal NilZero.int_of_string) in Heq.
  rewrite !Hnil in Heq. now injection Heq.
Qed.

Lemma fader_address_eqb (n f : Z) :
  String.eqb (fader_address n) (fader_address f) = Z.eqb n f.
Proof.
  destruct (Z.eqb_spec n f) as [->|Hne].
  - apply String.eqb_refl.
  - apply String.eqb_neq. unfold fader_address. cbn [append].
    intros [= Heq]. now apply str_inj in Heq.
Qed.

Lemma contains_fader (fl : list Z) (n : Z) :
  contains (map fader_address fl) (fader_address n) = existsb (Z.eqb n) fl.
Proof.
  unfold contains. induction fl as [|f fl IH]; [reflexivity|].
  cbn [map existsb]. now rewrite IH, fader_address_eqb.
Qed.

(** No fader address is one of the fixed addresses of the class. *)
Lemma contains_fixed (fl : list Z) :
  contains (map fader_address fl) BUS_OUTPUT = false
  /\ contains (map fader_address fl) MASTER_VOLUME = false
  /\ contains (map fader_address fl) MASTER_MUTE = false
  /\ contains (map fader_address fl) MAIN_DIM = false.
Proof.
  unfold contains. induction fl as [|f fl (IH1 & IH2 & IH3 & IH4)];
    [now repeat split|].
  cbn [map existsb]. rewrite IH1, IH2, IH3, IH4. repeat split; reflexivity.
Qed.

Lemma init_addresses {F : Type} {N : Number F} (ip : string)
    (port receive_port : Z) (step : F) (faders : option (list Z)) :
  let w0 := __init__ ip port receive_port step faders in
  volume_addresses (self w0) = map fader_address (TotalMixController.faders (self w0)).
Proof. reflexivity. Qed.

End Addresses.

Section Routing.
Open Scope float_scope.
Open Scope string_scope.

(** X8: which inbound messages move the level.  On a controller built by
    [__init__], after any sequence of calls, a message addressed to
    "/1/volume<n>" with at least one argument overwrites [current_volume]
    exactly when [n] is one of the controller's faders and the first argument
    converts to a number; otherwise the level is kept.  Distinct fader
    numbers never share an address. *)
Theorem fader_feedback_routing (float_of_str : string -> option float)
    (ip : string) (port receive_port : Z) (step : float)
    (faders : option (list Z)) (ops : list (op float))
    (n : Z) (a0 : value float) (rest : list (value float)) :
  let w0 := __init__ ip port receive_port step faders in
  let w := run float_of_str ops w0 in
  current_volume
    (self (snd (_handle_osc_feedback float_of_str (fader_address n)
                  (a0 :: rest) w))) =
  (if existsb (Z.eqb n) (TotalMixController.faders (self w0)) then
     match float_value float_of_str a0 with
     | Some x => x
     | None => current_volume (self w)
     end
   else current_volume (self w)).
Proof.
  intros w0 w. rewrite feedback_spec. cbn zeta.
  unfold w. rewrite run_keeps_addresses. fold w.
  unfold w0 at 1. rewrite init_addresses. fold w0.
  rewrite contains_fader.
  destruct (existsb (Z.eqb n) (TotalMixController.faders (self w0)));
    [destruct (float_value float_of_str a0)|];
    destruct (received_feedback (self w)); reflexivity.
Qed.

(** X9: inbound messages on the fixed addresses are ignored.  On a controller
    built by [__init__], after any sequence of calls, a message addressed to
    bus-select, master volume (to which [set_volume] itself writes the level),
    master mute or dim makes the handler return without changing
    [current_volume] or [is_muted], whatever its arguments. *)
Theorem fixed_address_feedback_ignored (float_of_str : string -> option float)
    (ip : string) (port receive_port : Z) (step : float)
    (faders : option (list Z)) (ops : list (op float))
    (args : list (value float)) :
  let w := run float_of_str ops (__init__ ip port receive_port step faders) in
  Forall (fun address =>
            let r := _handle_osc_feedback float_of_str address args w in
            fst r = Returned tt
            /\ current_volume (self (snd r)) = current_volume (self w)
            /\ is_muted (self (snd r)) = is_muted (self w))
    [BUS_OUTPUT; MASTER_VOLUME; MASTER_MUTE; MAIN_DIM].
Proof.
  intros w.
  assert (Haddrs : exists fl, volume_addresses (self w) = map fader_address fl).
  { unfold w. rewrite run_keeps_addresses. eexists. apply init_addresses. }
  destruct Haddrs as [fl Hfl].
  destruct (contains_fixed fl) as (H1 & H2 & H3 & H4).
  repeat constructor; cbn zeta; rewrite feedback_spec; cbn zeta;
    rewrite Hfl, ?H1, ?H2, ?H3, ?H4;
    destruct args, (received_feedback (self w)); reflexivity.
Qed.

End Routing.

(** ** Not-a-number levels and steps *)

Section NotANumber.
Open Scope float_scope.

Lemma float_nan_rep (a : float) :
  PrimFloat.eqb a a = false -> Prim2SF a = S754_nan.
Proof.
  rewrite FloatAxioms.eqb_spec. generalize (Prim2SF a). intros x. unfold SFeqb.
  destruct x as [s|s| |s m e]; try destruct s; cbn;
    try discriminate; try reflexivity;
    rewrite Z.compare_refl, Pos.compare_cont_refl; discriminate.
Qed.

Lemma float_rep_nan (a : float) :
  Prim2SF a = S754_nan -> PrimFloat.eqb a a = false.
Proof. rewrite FloatAxioms.eqb_spec. now intros ->. Qed.

Lemma add_nan (x y : float) :
  PrimFloat.eqb x x = false \/ PrimFloat.eqb y y = false ->
  PrimFloat.eqb (x + y) (x + y) = false.
Proof.
  intros H. apply float_rep_nan. rewrite FloatAxioms.add_spec.
  unfold SF64add, SFadd.
  destruct H as [H|H]; apply float_nan_rep in H; rewrite H;
    [reflexivity | now destruct (Prim2SF x)].
Qed.

Lemma sub_nan (x y : float) :
  PrimFloat.eqb x x = false \/ PrimFloat.eqb y y = false ->
  PrimFloat.eqb (x - y) (x - y) = false.
Proof.
  intros H. apply float_rep_nan. rewrite FloatAxioms.sub_spec.
  unfold SF64sub, SFsub.
  destruct H as [H|H]; apply float_nan_rep in H; rewrite H;
    [reflexivity | now destruct (Prim2SF x)].
Qed.

(** X10: a NaN turns both step keys into "full volume".  When the step (as in
    [--step nan]) or the current level (after a NaN from the mixer) is a NaN,
    [volume_up] and [volume_down] both store 1.0, and send 1.0 as the master
    volume. *)
Theorem nan_step_goes_to_full_volume (w : world float) :
  PrimFloat.eqb (current_volume (self w)) (current_volume (self w)) = false
  \/ PrimFloat.eqb (step (self w)) (step (self w)) = false ->
  current_volume (self (snd (volume_up w))) = 1
  /\ current_volume (self (snd (volume_down w))) = 1
  /\ last_sent MASTER_VOLUME (wire (snd (volume_up w))) = Some 1
  /\ last_sent MASTER_VOLUME (wire (snd (volume_down w))) = Some 1.
Proof.
  intros Hnan.
  assert (Hup : max MIN_VOLUME
                  (min MAX_VOLUME (add (current_volume (self w)) (step (self w))))
                = 1).
  { rewrite clamp_value. cbn [eqb add Float64]. now rewrite (add_nan _ _ Hnan). }
  assert (Hdown : max MIN_VOLUME
                    (min MAX_VOLUME (sub (current_volume (self w)) (step (self w))))
                  = 1).
  { rewrite clamp_value. cbn [eqb sub Float64]. now rewrite (sub_nan _ _ Hnan). }
  unfold volume_up, volume_down, bind, attr. cbn [fst snd].
  rewrite !set_volume_spec. cbn [snd self wire current_volume set_current_volume].
  rewrite Hup, Hdown. unfold last_sent.
  rewrite !fold_left_app. cbn [fold_left]. rewrite !fold_left_app. cbn.
  repeat split.
Qed.

Lemma nan_step_goes_to_full_volume_witness :
  let w := __init__ "192.168.1.100"%string 7001 9001 nan (Some [1; 2]%Z) in
  current_volume (self (snd (volume_up w))) = 1
  /\ current_volume (self (snd (volume_down w))) = 1.
Proof.
  pose proof (nan_step_goes_to_full_volume
                (__init__ "192.168.1.100"%string 7001 9001 nan (Some [1; 2]%Z))
                (or_intror eq_refl)) as (Hup & Hdown & _).
  exact (conj Hup Hdown).
Defined.

End NotANumber.

(** ** Startup *)

Section StartupFacts.
Import Main.
Open Scope string_scope.
Variable int_of_str : string -> option Z.

Lemma split_length (sep : ascii) (s : string) :
  List.length (split sep s) =
  S (List.length (filter (Ascii.eqb sep) (list_ascii_of_string s))).
Proof.
  induction s as [|c rest IH]; [reflexivity|].
  cbn [split list_ascii_of_string filter].
  rewrite (Ascii.eqb_sym sep c).
  destruct (Ascii.eqb c sep); cbn [List.length].
  - now rewrite IH.
  - destruct (split sep rest) as [|piece pieces]; [discriminate IH|].
    cbn [List.length] in *. exact IH.
Qed.

(** The comprehension returns one integer per piece, or raises at a piece
    that does not parse. *)
Lemma ints_outcome (pieces : list string) :
  if forallb (fun f => match int_of_str (strip f) with
                       | Some _ => true
                       | None => false
                       end) pieces
  then exists ns, ints int_of_str pieces = Returned ns
                  /\ map Some ns = map (fun f => int_of_str (strip f)) pieces
  else ints int_of_str pieces = Raised ValueError.
Proof.
  induction pieces as [|f rest IH]; cbn [forallb ints map].
  - now exists [].
  - destruct (int_of_str (strip f)) as [n|]; cbn [andb]; [|reflexivity].
    destruct (forallb _ rest).
    + destruct IH as (ns & -> & Hns). exists (n :: ns). cbn [map].
      now rewrite Hns.
    + now rewrite IH.
Qed.

(** X11: how [main] starts.  [args.faders] is cut at every comma and each
    piece, stripped, goes through [int].  If some piece does not parse,
    [ValueError] leaves [main] uncaught, before the constructor is called.
    If every piece parses, the constructor is called with exactly those
    integers, one per piece (one more than there are commas), in order.
    Then, if no library call of the constructor raises, the controller is
    built: its fader list is the parsed one (never empty, so the default 1..6
    is never substituted) and it listens on port 9001 whatever the arguments.
    If one raises an [Exception], [main] exits with status 1 and goes no
    further; an exception of another kind is not caught. *)
Theorem startup_outcome (library : construction) (a : Namespace) :
  let pieces := split "," (arg_faders a) in
  if forallb (fun f => match int_of_str (strip f) with
                       | Some _ => true
                       | None => false
                       end) pieces
  then exists fl,
         map Some fl = map (fun f => int_of_str (strip f)) pieces
         /\ List.length fl =
              S (List.length (filter (Ascii.eqb ",")
                                (list_ascii_of_string (arg_faders a))))
         /\ startup int_of_str library a =
              match library with
              | Completes =>
                  Started (__init__ (arg_ip a) (arg_port a) 9001 (arg_step a)
                             (Some fl))
              | RaisesException => Exited 1
              | RaisesOther => Passed
              end
         /\ faders (self (__init__ (arg_ip a) (arg_port a) 9001 (arg_step a)
                            (Some fl))) = fl
         /\ wire (__init__ (arg_ip a) (arg_port a) 9001 (arg_step a) (Some fl)) =
              [ClientCreated (arg_ip a) (arg_port a); ListenerStarted 9001;
               Sent BUS_OUTPUT 1%float]
  else startup int_of_str library a = Uncaught ValueError.
Proof.
  intros pieces. unfold startup, parse_faders. fold pieces.
  pose proof (ints_outcome pieces) as H.
  destruct (forallb _ pieces).
  - destruct H as (fl & -> & Hfl). exists fl.
    assert (Hlen : List.length fl = List.length pieces).
    { rewrite <- (length_map Some fl), Hfl. apply length_map. }
    unfold pieces in Hlen. rewrite split_length in Hlen.
    repeat split; try assumption.
    destruct fl as [|f fl']; [discriminate Hlen | reflexivity].
  - now rewrite H.
Qed.

(** With [--faders "1, 2"] the controller of the usage example is built; if
    the library refuses the port, [main] exits with status 1; with
    [--faders 1,x] the constructor is never reached. *)
Lemma startup_examples :
  let a := {| arg_ip := "192.168.1.100"; arg_port := 7001;
              arg_step := 0.02%float; arg_faders := "1, 2" |} in
  let b := {| arg_ip := "192.168.1.100"; arg_port := 70000;
              arg_step := 0.02%float; arg_faders := "1, 2" |} in
  let c := {| arg_ip := "192.168.1.100"; arg_port := 7001;
              arg_step := 0.02%float; arg_faders := "1,x" |} in
  let int_of_digits (s : string) :=
    match s with
    | EmptyString => None
    | String _ _ => digits_value 0 s
    end in
  startup int_of_digits Completes a = Started fresh
  /\ startup int_of_digits RaisesException b = Exited 1
  /\ startup int_of_digits Completes c = Uncaught ValueError
  /\ startup int_of_digits RaisesException c = Uncaught ValueError.
Proof. repeat split. Qed.

End StartupFacts.

(** ** The latest datagram per address *)

Section LastSent.
Context {F : Type} {N : Number F}.
Variable float_of_str : string -> option F.

Lemma last_sent_app (a : string) (tr1 tr2 : list (event F)) :
  last_sent a (tr1 ++ tr2) =
  match last_sent a tr2 with
  | Some v => Some v
  | None => last_sent a tr1
  end.
Proof.
  unfold last_sent. rewrite fold_left_app.
  generalize (fold_left
                (fun acc e => match e with
                              | Sent a0 v => if String.eqb a0 a then Some v else acc
                              | _ => acc
                              end) tr1 None).
  induction tr2 as [|e tr2 IH]; intros acc; cbn [fold_left].
  - reflexivity.
  - rewrite IH. rewrite (IH (match e with
                             | Sent a0 v => if String.eqb a0 a then Some v else None
                             | _ => None
                             end)).
    destruct (fold_left _ tr2 None); [reflexivity|].
    destruct e as [ | |a0 v]; try reflexivity.
    now destruct (String.eqb a0 a).
Qed.

Lemma last_sent_levels (a : string) (v : F) (addrs : list string) :
  last_sent a (map (fun addr => Sent addr v) addrs) =
  if contains addrs a then Some v else None.
Proof.
  induction addrs as [|x addrs IH] using rev_ind; [reflexivity|].
  rewrite map_app, last_sent_app. cbn [map]. unfold contains in *.
  rewrite existsb_app. cbn [existsb]. rewrite orb_false_r, IH.
  unfold last_sent at 1. cbn [fold_left]. rewrite (String.eqb_sym x a).
  destruct (String.eqb a x); [now rewrite orb_true_r|].
  now rewrite orb_false_r.
Qed.

Lemma feedback_keeps_wire (address : string) (args : list (value F))
    (w : world F) :
  wire (snd (_handle_osc_feedback float_of_str address args w)) = wire w.
Proof.
  rewrite feedback_spec. destruct w as [c tr]. cbn [self wire].
  destruct args as [|a0 rest]; [reflexivity|].
  destruct (contains (volume_addresses c) address); [|reflexivity].
  now destruct (float_value float_of_str a0).
Qed.

Lemma run_app (ops1 ops2 : list (op F)) (w : world F) :
  run float_of_str (ops1 ++ ops2) w =
  run float_of_str ops2 (run float_of_str ops1 w).
Proof.
  revert w. induction ops1 as [|o rest IH]; intros w; cbn [run app];
    [reflexivity | apply IH].
Qed.

(** After [set_volume], the latest datagram on the master-volume address and
    on every fader address carries the stored level. *)
Lemma set_volume_last_sent (v : F) (w : world F) :
  let w' := snd (set_volume v w) in
  last_sent MASTER_VOLUME (wire w') = Some (current_volume (self w'))
  /\ forall a, contains (volume_addresses (self w)) a = true ->
               String.eqb MASTER_VOLUME a = false ->
               last_sent a (wire w') = Some (current_volume (self w')).
Proof.
  cbn zeta. rewrite set_volume_spec.
  cbn [snd self wire current_volume set_current_volume].
  split.
  - rewrite last_sent_app.
    change (Sent BUS_OUTPUT lit_1_0 :: ?l) with ([Sent BUS_OUTPUT lit_1_0] ++ l)%list.
    now rewrite !last_sent_app.
  - intros a Ha Hm. rewrite last_sent_app.
    change (Sent BUS_OUTPUT lit_1_0 :: ?l) with ([Sent BUS_OUTPUT lit_1_0] ++ l)%list.
    rewrite !last_sent_app, last_sent_levels, Ha.
    unfold last_sent at 1. cbn [fold_left]. now rewrite Hm.
Qed.

(** Only [toggle_mute] writes to the master-mute address, as long as that
    address is not among the fader addresses. *)
Lemma call_mute_wire (o : op F) (w : world F) :
  contains (volume_addresses (self w)) MASTER_MUTE = false ->
  last_sent MASTER_MUTE (wire (snd (call float_of_str o w))) =
  if is_toggle o
  then Some (if is_muted (self (snd (call float_of_str o w)))
             then lit_1_0 else lit_0_0)
  else last_sent MASTER_MUTE (wire w).
Proof.
  intros Hno.
  assert (Hbatch : forall v,
             last_sent MASTER_MUTE
               (wire w ++ Sent BUS_OUTPUT lit_1_0
                  :: map (fun addr => Sent addr v) (volume_addresses (self w))
                  ++ [Sent MASTER_VOLUME v]) = last_sent MASTER_MUTE (wire w)).
  { intros v. rewrite last_sent_app.
    change (Sent BUS_OUTPUT lit_1_0 :: ?l) with ([Sent BUS_OUTPUT lit_1_0] ++ l)%list.
    now rewrite !last_sent_app, last_sent_levels, Hno. }
  destruct o; cbn [call is_toggle].
  - rewrite set_volume_spec. apply Hbatch.
  - unfold volume_up, bind, attr. rewrite set_volume_spec. apply Hbatch.
  - unfold volume_down, bind, attr. rewrite set_volume_spec. apply Hbatch.
  - destruct w as [c tr].
    unfold toggle_mute, bind, attr, assign, send_message, emit.
    cbn [fst snd self wire is_muted set_is_muted].
    now rewrite last_sent_app.
  - unfold set_unity_gain. rewrite set_volume_spec. apply Hbatch.
  - now destruct w.
  - now rewrite feedback_keeps_wire.
Qed.

End LastSent.

Section Agreement.
Open Scope float_scope.
Open Scope string_scope.

Lemma run_mute_wire (float_of_str : string -> option float)
    (ops : list (op float)) :
  forall w : world float,
  contains (volume_addresses (self w)) MASTER_MUTE = false ->
  last_sent MASTER_MUTE (wire (run float_of_str ops w)) =
  if existsb is_toggle ops
  then Some (if is_muted (self (run float_of_str ops w)) then 1 else 0)
  else last_sent MASTER_MUTE (wire w).
Proof.
  induction ops as [|o rest IH]; intros w Hno; cbn [run existsb];
    [reflexivity|].
  assert (Hno' : contains (volume_addresses (self (snd (call float_of_str o w))))
                   MASTER_MUTE = false).
  { destruct (call_keeps_configuration float_of_str o w) as (_ & -> & _).
    exact Hno. }
  rewrite (IH _ Hno').
  destruct (existsb is_toggle rest) eqn:Hrest.
  - now rewrite orb_true_r.
  - rewrite orb_false_r, (call_mute_wire float_of_str o w Hno).
    destruct (is_toggle o); [|reflexivity].
    assert (Hsame : is_muted (self (run float_of_str rest (snd (call float_of_str o w))))
                    = is_muted (self (snd (call float_of_str o w)))).
    { clear -Hrest. generalize (snd (call float_of_str o w)). intros w'.
      revert w'. induction rest as [|o' rest IH]; intros w'; cbn [run];
        [reflexivity|].
      cbn [existsb] in Hrest. apply orb_false_iff in Hrest as [Ho' Hrest].
      rewrite (IH Hrest).
      destruct (call_flags float_of_str o' w') as (_ & _ & -> & _).
      rewrite Ho'. apply xorb_false_r. }
    now rewrite Hsame.
Qed.

(** X12: the mixer is always told the mute state the controller holds.  On a
    controller built by [__init__], after any sequence of calls, no datagram
    has gone to the master-mute address if the sequence has no [toggle_mute];
    otherwise the latest one carries the current [is_muted], 1.0 for muted
    and 0.0 for unmuted. *)
Theorem mute_wire_agrees (float_of_str : string -> option float)
    (ip : string) (port receive_port : Z) (step : float)
    (faders : option (list Z)) (ops : list (op float)) :
  let w := run float_of_str ops (__init__ ip port receive_port step faders) in
  last_sent MASTER_MUTE (wire w) =
  if existsb is_toggle ops
  then Some (if is_muted (self w) then 1 else 0)
  else None.
Proof.
  intros w. unfold w. rewrite run_mute_wire.
  - reflexivity.
  - rewrite init_addresses. apply contains_fixed.
Qed.

(** X13: after a local volume operation the mixer has been told the stored
    level everywhere.  On a controller built by [__init__], after any
    sequence of calls that ends with [set_volume], [volume_up], [volume_down]
    or [set_unity_gain], [current_volume] is in [0, 1] (whatever inbound
    messages had made of it before), and the latest datagram on the
    master-volume address and on each of the controller's fader addresses
    carries it. *)
Theorem level_wire_agrees (float_of_str : string -> option float)
    (ip : string) (port receive_port : Z) (step : float)
    (faders : option (list Z)) (ops : list (op float)) (o : op float) :
  sets_volume o = true ->
  let w := run float_of_str (ops ++ [o])
             (__init__ ip port receive_port step faders) in
  in_unit (current_volume (self w)) = true
  /\ last_sent MASTER_VOLUME (wire w) = Some (current_volume (self w))
  /\ Forall (fun a => last_sent a (wire w) = Some (current_volume (self w)))
       (volume_addresses (self w)).
Proof.
  intros Ho w. unfold w. rewrite run_app. cbn [run].
  set (w1 := run float_of_str ops (__init__ ip port receive_port step faders)).
  assert (Haddrs : volume_addresses (self w1) =
                   map fader_address
                     (TotalMixController.faders
                        (self (__init__ ip port receive_port step faders)))).
  { unfold w1. rewrite run_keeps_addresses. apply init_addresses. }
  assert (Hset : forall v,
             let w' := snd (set_volume v w1) in
             in_unit (current_volume (self w')) = true
             /\ last_sent MASTER_VOLUME (wire w') = Some (current_volume (self w'))
             /\ Forall (fun a => last_sent a (wire w') = Some (current_volume (self w')))
                  (volume_addresses (self w'))).
  { intros v w'. destruct (set_volume_last_sent v w1) as [Hm Hf].
    split; [unfold w'; rewrite set_volume_spec; apply clamp_in_unit|].
    split; [exact Hm|].
    apply Forall_forall. intros a Ha.
    assert (Hw' : volume_addresses (self w') = volume_addresses (self w1))
      by (unfold w'; now rewrite set_volume_spec).
    rewrite Hw' in Ha. apply Hf.
    - unfold contains. apply existsb_exists. exists a. split; [exact Ha|].
      apply String.eqb_refl.
    - rewrite Haddrs in Ha. apply in_map_iff in Ha as (f & <- & _).
      reflexivity. }
  destruct o; try discriminate Ho; cbn [call].
  - apply Hset.
  - unfold volume_up, bind, attr. cbn [fst snd]. apply Hset.
  - unfold volume_down, bind, attr. cbn [fst snd]. apply Hset.
  - apply Hset.
Qed.

Lemma level_wire_agrees_witness :
  let w := run float_of_digits
             ([OnFeedback "/1/volume1" [VFloat 1.5]; ToggleMute] ++ [VolumeDown])
             fresh in
  current_volume (self w) = 1
  /\ last_sent MASTER_VOLUME (wire w) = Some 1
  /\ last_sent "/1/volume2" (wire w) = Some 1.
Proof.
  pose proof (level_wire_agrees float_of_digits "192.168.1.100" 7001 9001 0.02
                (Some [1; 2]%Z)
                [OnFeedback "/1/volume1" [VFloat 1.5]; ToggleMute] VolumeDown
                eq_refl) as (_ & Hm & Hf).
  split; [reflexivity|]. split; [exact Hm|].
  apply Forall_inv_tail, Forall_inv in Hf. exact Hf.
Defined.

End Agreement.

(** ** The session loop *)

Section Loop.
Import Main.
Open Scope string_scope.

(** Of the registered callbacks only the one of Ctrl+Shift+Q is [stop]. *)
Lemma hotkey_stop (combination : string) :
  match hotkey combination with
  | Some o => is_stop o
  | None => false
  end = String.eqb combination "ctrl+shift+q".
Proof.
  unfold hotkey.
  destruct (String.eqb combination "ctrl+shift+up") eqn:E1;
    [apply String.eqb_eq in E1; now subst|].
  destruct (String.eqb combination "ctrl+shift+down") eqn:E2;
    [apply String.eqb_eq in E2; now subst|].
  destruct (String.eqb combination "ctrl+shift+m") eqn:E3;
    [apply String.eqb_eq in E3; now subst|].
  destruct (String.eqb combination "ctrl+shift+0") eqn:E4;
    [apply String.eqb_eq in E4; now subst|].
  now destruct (String.eqb combination "ctrl+shift+q").
Qed.

(** The loop from any state: [running] only ever goes from [True] to
    [False], and only the quit combination takes it there. *)
Lemma main_loop_from (float_of_str : string -> option float)
    (inputs : list input) :
  forall w : world float,
  match main_loop float_of_str inputs w with
  | Waiting w' =>
      existsb is_interrupt inputs = false
      /\ running (self w') = running (self w) && negb (existsb is_quit inputs)
  | Finished w' true => existsb is_interrupt inputs = true
  | Finished w' false =>
      running (self w) && negb (existsb is_quit inputs) = false
      /\ running (self w') = false
  end.
Proof.
  induction inputs as [|i rest IH]; intros w.
  - cbn. now rewrite andb_true_r.
  - destruct i as [combination|address args| |];
      cbn [main_loop existsb is_interrupt is_quit orb].
    + set (w1 := match hotkey combination with
                 | Some o => snd (call float_of_str o w)
                 | None => w
                 end).
      assert (Hw1 : running (self w1) =
                    running (self w)
                    && negb (String.eqb combination "ctrl+shift+q")).
      { unfold w1. rewrite <- hotkey_stop.
        destruct (hotkey combination) as [o|].
        - now destruct (call_flags float_of_str o w) as (_ & -> & _).
        - now rewrite andb_true_r. }
      specialize (IH w1). rewrite Hw1 in IH.
      rewrite negb_orb, andb_assoc. exact IH.
    + specialize (IH (snd (call float_of_str (OnFeedback address args) w))).
      destruct (call_flags float_of_str (OnFeedback address args) w)
        as (_ & Hr & _).
      cbn [is_stop negb] in Hr. rewrite andb_true_r in Hr.
      rewrite Hr in IH. exact IH.
    + reflexivity.
    + destruct (running (self w)) eqn:Hr.
      * specialize (IH w). rewrite Hr in IH. exact IH.
      * now split.
Qed.

(** X14: how [main]'s loop ends.  On the controller [main] has built, for
    every sequence of key combinations, inbound messages, interrupts and
    wake-ups of the loop: the loop is left through [KeyboardInterrupt] only
    if an interrupt is among them (whatever [controller.running] is then);
    it is left because its test failed only if the quit combination has been
    pressed, and [controller.running] is then [False]; and while it is still
    waiting no interrupt has come, and [controller.running] is [False]
    exactly when the quit combination is among the inputs.  So with neither
    Ctrl+Shift+Q nor an interrupt the loop is never left: no other hotkey, no
    unbound key and no message from the mixer ends it. *)
Theorem main_loop_exit (float_of_str : string -> option float)
    (ip : string) (port receive_port : Z) (step : float)
    (faders : option (list Z)) (inputs : list input) :
  match main_loop float_of_str inputs
          (__init__ ip port receive_port step faders) with
  | Waiting w =>
      existsb is_interrupt inputs = false
      /\ running (self w) = negb (existsb is_quit inputs)
  | Finished w true => existsb is_interrupt inputs = true
  | Finished w false =>
      existsb is_quit inputs = true /\ running (self w) = false
  end.
Proof.
  pose proof (main_loop_from float_of_str inputs
                (__init__ ip port receive_port step faders)) as H.
  change (running (self (__init__ ip port receive_port step faders)))
    with true in H.
  cbn [andb] in H.
  destruct (main_loop _ _ _) as [w|w [|]]; [exact H | exact H |].
  destruct H as [Hq Hr]. split; [|exact Hr].
  now apply negb_false_iff.
Qed.

(** An interrupt ends the loop with [controller.running] still [True], and
    the quit combination ends it at the next test of the loop, not before:
    keys pressed in between still act. *)
Lemma main_loop_examples :
  main_loop float_of_digits [Key "ctrl+shift+up"; Interrupt; Wake] fresh =
    Finished (snd (volume_up fresh)) true
  /\ running (self (snd (volume_up fresh))) = true
  /\ main_loop float_of_digits
       [Wake; Key "ctrl+shift+q"; Key "ctrl+shift+m"; Wake; Key "ctrl+shift+m"]
       fresh =
     Finished (snd (toggle_mute (snd (stop fresh)))) false.
Proof. repeat split. Qed.

End Loop.
